(** * Dispatcher and certificate authority: a shallow embedding

    The node dispatcher of [manager/dispatcher/dispatcher.go] is embedded
    function by function: every RPC handler is a pure function on an explicit
    [Dispatcher] state, the values Go obtains from its environment (the random
    draw of [rand.Int63n], the identifier of [identity.NewID], the clock) are
    arguments, and the two server streams are loops over the inputs that the
    stream observes at each of its suspension points.

    The certificate authority is only present through its test-suite
    ([ca/certificates_test.go]); its operations are modelled from the
    specification and the modelled definitions say so. *)

From Stdlib Require Import ZArith Lia.
From stdpp Require Import base option list strings gmap.

#[local] Open Scope string_scope.
#[local] Open Scope Z_scope.

(** ** Go prelude: results, panics, 64-bit integers *)

(** A Go function either returns or panics. *)
Inductive outcome (A : Type) : Type :=
| Returned (a : A)
| Panicked (msg : string).
Arguments Returned {A} a.
Arguments Panicked {A} msg.

(** Error values met by the dispatcher.  The three [Err...] sentinels are the
    package variables of dispatcher.go, the two [state_Err...] are those of the
    store package, [grpc_Errorf] and [fmt_Errorf] build fresh errors, and
    [transport] stands for whatever [stream.Send] reports. *)
Inductive codes_Code : Type := codes_InvalidArgument | codes_NotFound.

Inductive error : Type :=
| ErrNodeAlreadyRegistered
| ErrNodeNotRegistered
| ErrSessionInvalid
| state_ErrExist
| state_ErrNotExist
| grpc_Errorf (c : codes_Code) (desc : string)
| fmt_Errorf (msg : string)
| transport (msg : string).

#[global] Instance codes_Code_eq_dec : EqDecision codes_Code.
Proof. solve_decision. Defined.
#[global] Instance error_eq_dec : EqDecision error.
Proof. solve_decision. Defined.

(** [err.Error()] for the sentinels whose text dispatcher.go fixes. *)
Definition Error (e : error) : string :=
  match e with
  | ErrNodeAlreadyRegistered => "node already registered"
  | ErrNodeNotRegistered => "node not registered"
  | ErrSessionInvalid => "session invalid"
  | state_ErrExist => "state: object already exists"
  | state_ErrNotExist => "state: object does not exist"
  | grpc_Errorf _ desc => desc
  | fmt_Errorf msg => msg
  | transport msg => msg
  end.

(** A Go [(value, error)] pair. *)
Inductive result (A : Type) : Type :=
| Ok (a : A)
| Err (e : error).
Arguments Ok {A} a.
Arguments Err {A} e.

(** Signed 64-bit arithmetic wraps around. *)
Definition wrap64 (z : Z) : Z := (z + 2 ^ 63) mod 2 ^ 64 - 2 ^ 63.

Definition in_int64 (z : Z) : Prop := - 2 ^ 63 <= z < 2 ^ 63.

(** ** package time *)
Module time.

(** [time.Duration] is an [int64] count of nanoseconds. *)
Definition Duration := Z.
Definition Millisecond : Duration := 1000000.
Definition Second : Duration := 1000 * Millisecond.

(** Instants; the clock is read by the caller and passed down. *)
Definition Time := Z.

End time.

(** ** package math/rand *)
Module rand.

(** [rand.Int63n n] panics when [n <= 0] and otherwise returns a value of
    [[0, n)].  The generator's raw 63-bit output is the argument [draw];
    reducing it modulo [n] reaches every value of [[0, n)]. *)
Definition Int63n (n : Z) (draw : Z) : outcome Z :=
  if n <=? 0 then Panicked "invalid argument to Int63n"
  else Returned (draw mod n).

End rand.

(** ** package api: the messages the dispatcher reads and writes *)
Module api.

Inductive NodeStatus_State : Type :=
| NodeStatus_UNKNOWN
| NodeStatus_DOWN
| NodeStatus_READY.

Record NodeStatus : Type := mkNodeStatus { State : NodeStatus_State }.

Record NodeSpec : Type := mkNodeSpec { NodeSpec_ID : string }.

Record Node : Type := mkNode { Spec : NodeSpec; Status : NodeStatus }.

(** The task status is opaque to the dispatcher. *)
Definition TaskStatus := Z.

Record Task : Type := mkTask {
  Task_ID : string;
  Task_NodeID : string;
  Task_Status : TaskStatus
}.

Record TaskStatusUpdate : Type := mkTaskStatusUpdate {
  Update_ID : string;
  Update_Status : TaskStatus
}.

Record RegisterRequest : Type := mkRegisterRequest { Register_Spec : NodeSpec }.

Record RegisterResponse : Type := mkRegisterResponse {
  Response_NodeID : string;
  Response_SessionID : string
}.

Record UpdateTaskStatusRequest : Type := mkUpdateTaskStatusRequest {
  UTS_NodeID : string;
  UTS_SessionID : string;
  UTS_Tasks : list TaskStatusUpdate
}.

Record TasksRequest : Type := mkTasksRequest {
  TasksRequest_NodeID : string;
  TasksRequest_SessionID : string
}.

Record TasksMessage : Type := mkTasksMessage { Tasks : list Task }.

Record HeartbeatRequest : Type := mkHeartbeatRequest {
  HeartbeatRequest_NodeID : string;
  HeartbeatRequest_SessionID : string
}.

Record HeartbeatResponse : Type := mkHeartbeatResponse { Period : time.Duration }.

Record WeightedPeer : Type := mkWeightedPeer { Addr : string; Weight : Z }.

Record SessionRequest : Type := mkSessionRequest {
  SessionRequest_NodeID : string;
  SessionRequest_SessionID : string
}.

Record SessionMessage : Type := mkSessionMessage {
  Managers : list WeightedPeer;
  Disconnect : bool
}.

End api.

(** ** package pkg/heartbeat *)
Module heartbeat.

(** Modelled from the spec: the heartbeat timer of pkg/heartbeat, which is
    a package of its own.  The timer is a deadline object:
    [New] arms it [timeout] from now, [Update] stores the time-to-live that
    the next beat uses, [Beat] resets the deadline to now plus the stored
    time-to-live, and the timer fires once the clock reaches the deadline. *)
Record Heartbeat : Type := mkHeartbeat {
  timeout : time.Duration;
  deadline : time.Time
}.

Definition New (ttl : time.Duration) (now : time.Time) : Heartbeat :=
  {| timeout := ttl; deadline := now + ttl |}.

Definition Update (hb : Heartbeat) (ttl : time.Duration) : Heartbeat :=
  {| timeout := ttl; deadline := deadline hb |}.

Definition Beat (hb : Heartbeat) (now : time.Time) : Heartbeat :=
  {| timeout := timeout hb; deadline := now + timeout hb |}.

Definition fires (hb : Heartbeat) (now : time.Time) : bool :=
  deadline hb <=? now.

End heartbeat.

(** ** package state: the backing store and its watch queue *)
Module state.

(** Modelled from the spec: the backing store (package state), which the
    dispatcher only reaches through [Update], [View], [WatchQueue] and
    [Watch].  Rows are keyed by identifier; [Create] refuses an identifier
    that is taken with [ErrExist], [Update] of a row refuses an identifier
    that is absent with [ErrNotExist] and otherwise replaces the row; a
    transaction whose callback returns an error leaves the store as it was. *)
Record MemoryStore : Type := mkMemoryStore {
  nodes : gmap string api.Node;
  tasks : gmap string api.Task
}.

(** A transaction works on a copy of the store. *)
Definition Tx := MemoryStore.
Definition ReadTx := MemoryStore.

Definition Nodes_Create (n : api.Node) (tx : Tx) : option error * Tx :=
  let id := api.NodeSpec_ID (api.Spec n) in
  match nodes tx !! id with
  | Some _ => (Some state_ErrExist, tx)
  | None => (None, {| nodes := <[id := n]> (nodes tx); tasks := tasks tx |})
  end.

Definition Nodes_Update (n : api.Node) (tx : Tx) : option error * Tx :=
  let id := api.NodeSpec_ID (api.Spec n) in
  match nodes tx !! id with
  | None => (Some state_ErrNotExist, tx)
  | Some _ => (None, {| nodes := <[id := n]> (nodes tx); tasks := tasks tx |})
  end.

Definition Tasks_Update (t : api.Task) (tx : Tx) : option error * Tx :=
  let id := api.Task_ID t in
  match tasks tx !! id with
  | None => (Some state_ErrNotExist, tx)
  | Some _ => (None, {| nodes := nodes tx; tasks := <[id := t]> (tasks tx) |})
  end.

(** [store.Update(cb)]: commit on success, roll back on error. *)
Definition Update (s : MemoryStore) (cb : Tx -> option error * Tx)
  : option error * MemoryStore :=
  match cb s with
  | (None, s') => (None, s')
  | (Some e, _) => (Some e, s)
  end.

(** [readTx.Tasks().Find(state.ByNodeID(id))]. *)
Definition Tasks_Find_ByNodeID (id : string) (tx : ReadTx)
  : list api.Task * option error :=
  ((filter (fun t => api.Task_NodeID t = id) (map_to_list (tasks tx)).*2), None).

(** Events published on the watch queue. *)
Inductive Event : Type :=
| EventCreateTask (t : api.Task)
| EventUpdateTask (t : api.Task)
| EventDeleteTask (t : api.Task)
| EventCreateNode (n : api.Node)
| EventUpdateNode (n : api.Node)
| EventDeleteNode (n : api.Node).

(** [TaskCheckNodeID]: the event's task is addressed to the node of the
    specifier. *)
Definition TaskCheckNodeID (t1 t2 : api.Task) : bool :=
  bool_decide (api.Task_NodeID t1 = api.Task_NodeID t2).

(** An event matches a specifier when both are of the same kind and every
    check of the specifier holds. *)
Definition matches (spec ev : Event) (checks : list (api.Task -> api.Task -> bool)) : bool :=
  match spec, ev with
  | EventCreateTask s, EventCreateTask t
  | EventUpdateTask s, EventUpdateTask t
  | EventDeleteTask s, EventDeleteTask t => forallb (fun chk => chk s t) checks
  | _, _ => false
  end.

(** [state.Watch(queue, specifiers...)]: the channel carries, in order, the
    published events that match one of the specifiers. *)
Definition Watch (queue : list Event)
    (specs : list (Event * list (api.Task -> api.Task -> bool))) : list Event :=
  filter (fun ev => existsb (fun sc => matches sc.1 ev sc.2) specs) queue.

End state.

(** ** package dispatcher *)
Module dispatcher.

Definition defaultHeartBeatPeriod : time.Duration := 5 * time.Second.
Definition defaultHeartBeatEpsilon : time.Duration := 500 * time.Millisecond.
Definition defaultGracePeriodMultiplier : Z := 3.

(** Fields carry the prefix [rn_] because the handlers [Heartbeat] and
    [Tasks] bear the names of two of them. *)
Record registeredNode : Type := mkRegisteredNode {
  rn_SessionID : string;
  rn_Heartbeat : heartbeat.Heartbeat;
  rn_Tasks : list string;
  rn_Node : api.Node
}.

(** The error every handler reports for a stale session. *)
Definition InvalidSession : error :=
  grpc_Errorf codes_InvalidArgument (Error ErrSessionInvalid).

Definition NodeNotRegistered : error :=
  grpc_Errorf codes_NotFound (Error ErrNodeNotRegistered).

Definition checkSessionID (rn : registeredNode) (sessionID : string) : option error :=
  if decide (rn_SessionID rn ≠ sessionID) then Some InvalidSession else None.

(** The [rand] field is never read: [Choose] draws from the global source. *)
Record periodChooser : Type := mkPeriodChooser {
  period : time.Duration;
  epsilon : time.Duration
}.

Definition newPeriodChooser (period eps : time.Duration) : periodChooser :=
  {| period := period; epsilon := eps |}.

Definition Choose (pc : periodChooser) (draw : Z) : outcome time.Duration :=
  let adj :=
    if 0 <? epsilon pc then
      match rand.Int63n (wrap64 (2 * epsilon pc)) draw with
      | Returned r => Returned (wrap64 (r - epsilon pc))
      | Panicked m => Panicked m
      end
    else Returned 0 in
  match adj with
  | Returned a => Returned (wrap64 (period pc + a))
  | Panicked m => Panicked m
  end.

Record Config : Type := mkConfig {
  Addr : string;
  HeartbeatPeriod : time.Duration;
  HeartbeatEpsilon : time.Duration;
  GracePeriodMultiplier : Z
}.

Definition DefaultConfig : Config :=
  {| Addr := "";
     HeartbeatPeriod := defaultHeartBeatPeriod;
     HeartbeatEpsilon := defaultHeartBeatEpsilon;
     GracePeriodMultiplier := defaultGracePeriodMultiplier |}.

(** The map holds pointers in Go; a handler runs to completion here, so the
    node reached through the map and the map entry are the same object and a
    write through the pointer is a write of the entry. *)
Record Dispatcher : Type := mkDispatcher {
  d_addr : string;
  d_nodes : gmap string registeredNode;
  d_store : state.MemoryStore;
  d_gracePeriodMultiplier : Z;
  d_periodChooser : periodChooser
}.

Definition set_nodes (d : Dispatcher) (m : gmap string registeredNode) : Dispatcher :=
  {| d_addr := d_addr d; d_nodes := m; d_store := d_store d;
     d_gracePeriodMultiplier := d_gracePeriodMultiplier d;
     d_periodChooser := d_periodChooser d |}.

Definition set_store (d : Dispatcher) (s : state.MemoryStore) : Dispatcher :=
  {| d_addr := d_addr d; d_nodes := d_nodes d; d_store := s;
     d_gracePeriodMultiplier := d_gracePeriodMultiplier d;
     d_periodChooser := d_periodChooser d |}.

Definition New (store : state.MemoryStore) (c : Config) : Dispatcher :=
  {| d_addr := Addr c;
     d_nodes := ∅;
     d_store := store;
     d_periodChooser := newPeriodChooser (HeartbeatPeriod c) (HeartbeatEpsilon c);
     d_gracePeriodMultiplier := GracePeriodMultiplier c |}.

(** [registerNode]: [newID] is what [identity.NewID()] returns.  A panic of
    [Choose] unwinds before the map is written. *)
Definition registerNode (d : Dispatcher) (spec : api.NodeSpec)
    (newID : string) (draw : Z) (now : time.Time)
  : outcome (registeredNode * Dispatcher) :=
  let n := {| api.Spec := spec; api.Status := {| api.State := api.NodeStatus_UNKNOWN |} |} in
  match Choose (d_periodChooser d) draw with
  | Panicked m => Panicked m
  | Returned p =>
    let rn := {| rn_SessionID := newID;
                 rn_Heartbeat :=
                   heartbeat.New (wrap64 (p * d_gracePeriodMultiplier d)) now;
                 rn_Tasks := [];
                 rn_Node := n |} in
    Returned (rn, set_nodes d (<[api.NodeSpec_ID (api.Spec n) := rn]> (d_nodes d)))
  end.

(** The transaction of [Register]: create the row, or update it when it
    exists. *)
Definition Register_tx (n : api.Node) (tx : state.Tx) : option error * state.Tx :=
  match state.Nodes_Create n tx with
  | (Some err, tx1) =>
    if decide (err ≠ state_ErrExist) then (Some err, tx1)
    else match state.Nodes_Update n tx1 with
         | (Some err', tx2) => (Some err', tx2)
         | (None, tx2) => (None, tx2)
         end
  | (None, tx1) => (None, tx1)
  end.

Definition Register (d : Dispatcher) (r : api.RegisterRequest)
    (newID : string) (draw : Z) (now : time.Time)
  : outcome (result api.RegisterResponse) * Dispatcher :=
  let id := api.NodeSpec_ID (api.Register_Spec r) in
  let found :=
    match d_nodes d !! id with
    | Some rn => Returned (rn, d)
    | None => registerNode d (api.Register_Spec r) newID draw now
    end in
  match found with
  | Panicked m => (Panicked m, d)
  | Returned (rn, d1) =>
    let rn' := {| rn_SessionID := rn_SessionID rn;
                  rn_Heartbeat := rn_Heartbeat rn;
                  rn_Tasks := rn_Tasks rn;
                  rn_Node := {| api.Spec := api.Spec (rn_Node rn);
                                api.Status := {| api.State := api.NodeStatus_READY |} |} |} in
    let d2 := set_nodes d1 (<[id := rn']> (d_nodes d1)) in
    match state.Update (d_store d2) (Register_tx (rn_Node rn')) with
    | (Some err, s) => (Returned (Err err), set_store d2 s)
    | (None, s) =>
      (Returned (Ok {| api.Response_NodeID := api.NodeSpec_ID (api.Spec (rn_Node rn'));
                       api.Response_SessionID := rn_SessionID rn' |}),
       set_store d2 s)
    end
  end.

(** The row that [UpdateTaskStatus] writes for one update of the request. *)
Definition status_row (t : api.TaskStatusUpdate) : api.Task :=
  {| api.Task_ID := api.Update_ID t; api.Task_NodeID := "";
     api.Task_Status := api.Update_Status t |}.

(** The loop of [UpdateTaskStatus] inside its transaction. *)
Fixpoint UpdateTaskStatus_tx (ts : list api.TaskStatusUpdate) (tx : state.Tx)
  : option error * state.Tx :=
  match ts with
  | [] => (None, tx)
  | t :: ts' =>
    match state.Tasks_Update (status_row t) tx with
    | (Some err, tx') => (Some err, tx')
    | (None, tx') => UpdateTaskStatus_tx ts' tx'
    end
  end.

(** The response is always the nil pointer, hence [unit]. *)
Definition UpdateTaskStatus (d : Dispatcher) (r : api.UpdateTaskStatusRequest)
  : result unit * Dispatcher :=
  match d_nodes d !! api.UTS_NodeID r with
  | None => (Err NodeNotRegistered, d)
  | Some rn =>
    match checkSessionID rn (api.UTS_SessionID r) with
    | Some err => (Err err, d)
    | None =>
      match state.Update (d_store d) (UpdateTaskStatus_tx (api.UTS_Tasks r)) with
      | (Some err, s) => (Err err, set_store d s)
      | (None, s) => (Ok tt, set_store d s)
      end
    end
  end.

(** The row that [nodeDown] writes. *)
Definition down_row (id : string) : api.Node :=
  {| api.Spec := {| api.NodeSpec_ID := id |};
     api.Status := {| api.State := api.NodeStatus_DOWN |} |}.

Definition nodeDown (d : Dispatcher) (id : string) : option error * Dispatcher :=
  let d1 := set_nodes d (delete id (d_nodes d)) in
  match state.Update (d_store d1) (state.Nodes_Update (down_row id)) with
  | (Some _, s) =>
    (Some (fmt_Errorf ("failed to update node " +:+ id +:+ " status to down")),
     set_store d1 s)
  | (None, s) => (None, set_store d1 s)
  end.

(** The closure that [registerNode] hands to [heartbeat.New]: it returns
    nothing, an error of [nodeDown] ends in the log. *)
Definition registerNode_callback (nid : string) (w : Dispatcher * list string)
  : Dispatcher * list string :=
  match nodeDown w.1 nid with
  | (Some err, d') =>
    (d', (w.2 ++ ["error deregistering node " +:+ nid +:+
                  " after heartbeat was not received: " +:+ Error err])%list)
  | (None, d') => (d', w.2)
  end.

(** The timer of a registered node runs its callback once the clock has
    reached its deadline. *)
Definition timer_fires (now : time.Time) (nid : string) (w : Dispatcher * list string)
  : Dispatcher * list string :=
  match d_nodes w.1 !! nid with
  | Some rn =>
    if heartbeat.fires (rn_Heartbeat rn) now then registerNode_callback nid w else w
  | None => w
  end.

Definition Heartbeat (d : Dispatcher) (r : api.HeartbeatRequest)
    (draw : Z) (now : time.Time)
  : outcome (result api.HeartbeatResponse) * Dispatcher :=
  match d_nodes d !! api.HeartbeatRequest_NodeID r with
  | None => (Returned (Err NodeNotRegistered), d)
  | Some node =>
    match Choose (d_periodChooser d) draw with
    | Panicked m => (Panicked m, d)
    | Returned period =>
      let grace := wrap64 (period * d_gracePeriodMultiplier d) in
      if decide (rn_SessionID node ≠ api.HeartbeatRequest_SessionID r)
      then (Returned (Err InvalidSession), d)
      else
        let hb := heartbeat.Beat (heartbeat.Update (rn_Heartbeat node) grace) now in
        let node' := {| rn_SessionID := rn_SessionID node; rn_Heartbeat := hb;
                        rn_Tasks := rn_Tasks node; rn_Node := rn_Node node |} in
        (Returned (Ok {| api.Period := period |}),
         set_nodes d (<[api.HeartbeatRequest_NodeID r := node']> (d_nodes d)))
    end
  end.

Definition getManagers (d : Dispatcher) : list api.WeightedPeer :=
  [ {| api.Addr := d_addr d; api.Weight := 1 |} ].

(** *** Server streams

    A stream handler is suspended at each lock acquisition, at each
    [stream.Send] and in its [select].  What it finds there is given by the
    environment: [seen k] is the session identifier read from the registered
    node by the [k]-th check inside the loop (the node is shared with the
    other handlers), [sent k] is the result of the [k]-th [stream.Send]. *)
Record StreamEnv : Type := mkStreamEnv {
  seen : nat -> string;
  sent : nat -> option error
}.

(** How far a handler got: it returned, or it is still suspended. *)
Inductive StreamEnd : Type :=
| Closed (err : option error)
| Open.

(** What the [select] of [Tasks] yields. *)
Inductive Select : Type :=
| Recv (ev : state.Event)
| Done.

(** The [switch] on the event payload. *)
Definition Tasks_apply (ev : state.Event) (tasksMap : gmap string api.Task)
  : gmap string api.Task :=
  match ev with
  | state.EventCreateTask t => <[api.Task_ID t := t]> tasksMap
  | state.EventUpdateTask t => <[api.Task_ID t := t]> tasksMap
  | state.EventDeleteTask t => delete (api.Task_ID t) tasksMap
  | _ => tasksMap
  end.

(** [range tasksMap] visits the entries in an order Go leaves open; the
    message lists the values of the map. *)
Definition Tasks_message (tasksMap : gmap string api.Task) : api.TasksMessage :=
  {| api.Tasks := (map_to_list tasksMap).*2 |}.

(** The [for] loop of [Tasks], entered for the [k]-th time; [nodeTasks] is
    what the [select] will yield from now on, and an empty [nodeTasks] leaves
    the handler waiting. *)
Fixpoint Tasks_loop (sessionID : string) (env : StreamEnv) (k : nat)
    (tasksMap : gmap string api.Task) (nodeTasks : list Select)
  : list api.TasksMessage * StreamEnd :=
  if decide (seen env k ≠ sessionID) then ([], Closed (Some InvalidSession))
  else
    match sent env k with
    | Some err => ([], Closed (Some err))
    | None =>
      match nodeTasks with
      | [] => ([Tasks_message tasksMap], Open)
      | Done :: _ => ([Tasks_message tasksMap], Closed None)
      | Recv ev :: rest =>
        let '(msgs, e) := Tasks_loop sessionID env (S k) (Tasks_apply ev tasksMap) rest in
        (Tasks_message tasksMap :: msgs, e)
      end
    end.

(** What the [select] yields: the delivered events, then the cancellation
    when there is one. *)
Definition channel (evs : list state.Event) (ctxDone : bool) : list Select :=
  (map Recv evs ++ (if ctxDone then [Done] else []))%list.

(** The [View] transaction of [Tasks]: an error of [Find] is swallowed and
    leaves the map empty. *)
Definition Tasks_snapshot (nodeID : string) (readTx : state.ReadTx)
  : gmap string api.Task :=
  match state.Tasks_Find_ByNodeID nodeID readTx with
  | (_, Some _) => ∅
  | (tasks, None) => foldl (fun m t => <[api.Task_ID t := t]> m) ∅ tasks
  end.

(** The three specifiers handed to [state.Watch]. *)
Definition Tasks_specifiers (nodeID : string)
  : list (state.Event * list (api.Task -> api.Task -> bool)) :=
  let t := {| api.Task_ID := ""; api.Task_NodeID := nodeID; api.Task_Status := 0 |} in
  [ (state.EventCreateTask t, [state.TaskCheckNodeID]);
    (state.EventUpdateTask t, [state.TaskCheckNodeID]);
    (state.EventDeleteTask t, [state.TaskCheckNodeID]) ].

(** [Tasks]: [queue] holds the events published after the subscription and
    [ctxDone] tells whether the peer's context is cancelled once they are
    consumed. *)
Definition Tasks (d : Dispatcher) (r : api.TasksRequest) (env : StreamEnv)
    (queue : list state.Event) (ctxDone : bool)
  : list api.TasksMessage * StreamEnd :=
  match d_nodes d !! api.TasksRequest_NodeID r with
  | None => ([], Closed (Some NodeNotRegistered))
  | Some rn =>
    match checkSessionID rn (api.TasksRequest_SessionID r) with
    | Some err => ([], Closed (Some err))
    | None =>
      let nodeTasks :=
        state.Watch queue (Tasks_specifiers (api.TasksRequest_NodeID r)) in
      let tasksMap := Tasks_snapshot (api.TasksRequest_NodeID r) (d_store d) in
      Tasks_loop (api.TasksRequest_SessionID r) env 0 tasksMap
        (channel nodeTasks ctxDone)
    end
  end.

(** The [for] loop of [Session], entered for the [k]-th time and followed
    for [n] more rounds; the loop has no exit but its two [return]s. *)
Fixpoint Session_loop (d : Dispatcher) (sessionID : string) (env : StreamEnv)
    (k n : nat) : list api.SessionMessage * StreamEnd :=
  match n with
  | O => ([], Open)
  | S n' =>
    if decide (seen env k ≠ sessionID) then ([], Closed (Some InvalidSession))
    else
      let msg := {| api.Managers := getManagers d; api.Disconnect := false |} in
      match sent env k with
      | Some err => ([], Closed (Some err))
      | None =>
        let '(msgs, e) := Session_loop d sessionID env (S k) n' in
        (msg :: msgs, e)
      end
  end.

Definition Session (d : Dispatcher) (r : api.SessionRequest) (env : StreamEnv)
    (n : nat) : list api.SessionMessage * StreamEnd :=
  match d_nodes d !! api.SessionRequest_NodeID r with
  | None => ([], Closed (Some NodeNotRegistered))
  | Some _ => Session_loop d (api.SessionRequest_SessionID r) env 0 n
  end.

(** *** The states a dispatcher goes through

    A dispatcher starts from [New]; its state then changes through the
    handlers, through the timer callback, and through the other writers of
    the store. *)
Inductive reachable : Dispatcher -> Prop :=
| reach_New store c : reachable (New store c)
| reach_Register d r newID draw now :
    reachable d -> reachable (Register d r newID draw now).2
| reach_UpdateTaskStatus d r :
    reachable d -> reachable (UpdateTaskStatus d r).2
| reach_Heartbeat d r draw now :
    reachable d -> reachable (Heartbeat d r draw now).2
| reach_nodeDown d id :
    reachable d -> reachable (nodeDown d id).2
| reach_store d s :
    reachable d -> reachable (set_store d s).

(** *** Notions used to state the properties *)

(** All updates of a request applied in order. *)
Definition apply_updates (ts : list api.TaskStatusUpdate) (m : gmap string api.Task)
  : gmap string api.Task :=
  foldl (fun m t => <[api.Update_ID t := status_row t]> m) m ts.

Definition known (m : gmap string api.Task) (t : api.TaskStatusUpdate) : Prop :=
  is_Some (m !! api.Update_ID t).

(** Every entry of a task map sits under the identifier of its task. *)
Definition keyed (m : gmap string api.Task) : Prop :=
  forall k t, m !! k = Some t -> api.Task_ID t = k.

(** The task map after a run of events. *)
Definition view (m : gmap string api.Task) (evs : list state.Event)
  : gmap string api.Task :=
  foldl (fun m ev => Tasks_apply ev m) m evs.

(** A registered node once [Register] has marked it READY. *)
Definition ready (rn : registeredNode) : registeredNode :=
  {| rn_SessionID := rn_SessionID rn;
     rn_Heartbeat := rn_Heartbeat rn;
     rn_Tasks := rn_Tasks rn;
     rn_Node := {| api.Spec := api.Spec (rn_Node rn);
                   api.Status := {| api.State := api.NodeStatus_READY |} |} |}.

(** The task an event is about, when it is a task event. *)
Definition Event_Task (ev : state.Event) : option api.Task :=
  match ev with
  | state.EventCreateTask t | state.EventUpdateTask t | state.EventDeleteTask t => Some t
  | _ => None
  end.

(** [Choose] does not panic: the bound handed to [rand.Int63n] is positive
    whenever it is computed. *)
Definition Choose_safe (pc : periodChooser) : Prop :=
  epsilon pc <= 0 \/ 0 < wrap64 (2 * epsilon pc).

End dispatcher.

(** ** package ca

    The test-suite [ca/certificates_test.go] calls into the certificate
    authority; the operations themselves are written down here from their
    specification.  X.509 material is kept symbolic: a key pair is the
    number [KeyID], the private half of key [k] is needed to produce a
    signature that [SignedBy] records as [k], and the DER encoding of a field
    is the field. *)
Module ca.

Inductive KeyKind : Type := ECDSA | RSA | DSA.
Inductive Hash : Type := SHA1 | SHA256 | SHA384 | SHA512.

Record PublicKey : Type := mkPublicKey {
  Kind : KeyKind;
  Bits : Z;
  KeyID : Z
}.

Record Name : Type := mkName {
  CommonName : string;
  OrganizationalUnit : list string;
  Organization : list string
}.

Record Certificate : Type := mkCertificate {
  Subject : Name;
  Issuer : Name;
  SubjectPublicKey : PublicKey;
  SignedBy : Z;
  SignatureKind : KeyKind;
  SignatureHash : Hash;
  DNSNames : list string;
  NotBefore : time.Time;
  NotAfter : time.Time;
  IsCA : bool
}.

(** What [cfcsr.CertificateRequest] carries. *)
Record CertificateRequest : Type := mkCertificateRequest {
  CSR_CN : string;
  CSR_O : list string;
  CSR_OU : list string;
  CSR_L : list string;
  CSR_Hosts : list string;
  CSR_PublicKey : PublicKey
}.

(** PEM bytes are a sequence of blocks; [PEM_Garbage] is a stretch of bytes
    that does not decode. *)
Inductive PEMBlock : Type :=
| PEM_Certificate (c : Certificate)
| PEM_CertificateRequest (r : CertificateRequest)
| PEM_ECPrivateKey (k : Z)
| PEM_Garbage (s : string).

#[global] Instance KeyKind_eq_dec : EqDecision KeyKind.
Proof. solve_decision. Defined.
#[global] Instance Hash_eq_dec : EqDecision Hash.
Proof. solve_decision. Defined.
#[global] Instance PublicKey_eq_dec : EqDecision PublicKey.
Proof. solve_decision. Defined.
#[global] Instance Name_eq_dec : EqDecision Name.
Proof. solve_decision. Defined.
#[global] Instance Certificate_eq_dec : EqDecision Certificate.
Proof. solve_decision. Defined.

(** The error taxonomy of the trust and signer errors. *)
Inductive Error : Type :=
| Malformed
| Empty
| NotAChain
| UnknownAuthority
| NotYetValid
| Expired
| NoTimeOverlap
| UnsupportedAlgorithm
| KeyMismatch
| NotACA
| NoValidSigner.

Inductive res (A : Type) : Type :=
| Success (a : A)
| Failure (e : Error).
Arguments Success {A} a.
Arguments Failure {A} e.

(** [certs[0].RawSubject] and [certs[0].RawSubjectPublicKeyInfo]. *)
Definition RawSubject (c : Certificate) : Name := Subject c.
Definition RawSubjectPublicKeyInfo (c : Certificate) : PublicKey := SubjectPublicKey c.

(** [helpers.ParseCertificatesPEM]: every block must be a certificate. *)
Fixpoint ParseCertificatesPEM (bytes : list PEMBlock) : option (list Certificate) :=
  match bytes with
  | [] => Some []
  | PEM_Certificate c :: rest =>
    match ParseCertificatesPEM rest with
    | Some cs => Some (c :: cs)
    | None => None
    end
  | _ :: _ => None
  end.

(** [helpers.ParseCertificatePEM]: the first block, which must be a
    certificate. *)
Definition ParseCertificatePEM (bytes : list PEMBlock) : option Certificate :=
  match bytes with
  | PEM_Certificate c :: _ => Some c
  | _ => None
  end.

Definition ParseCSR (bytes : list PEMBlock) : option CertificateRequest :=
  match bytes with
  | PEM_CertificateRequest r :: _ => Some r
  | _ => None
  end.

Record Signer : Type := mkSigner {
  SignerCert : Certificate;
  SignerKey : Z;
  SignerIntermediates : list Certificate
}.

Record RootCA : Type := mkRootCA {
  Certs : list PEMBlock;
  Pool : list Certificate;
  signer : option Signer;
  leafExpiry : time.Duration
}.

(** Modelled from the spec: [RootCA.Signer], "returns the signer or fails
    NoValidSigner (a RootCA may be verification-only)". *)
Definition RootCA_Signer (rca : RootCA) : res Signer :=
  match signer rca with
  | Some s => Success s
  | None => Failure NoValidSigner
  end.

(** The certificate a request asks for: its own names and hosts. *)
Definition requested (req : CertificateRequest) : Certificate :=
  {| Subject := {| CommonName := CSR_CN req;
                   OrganizationalUnit := CSR_OU req;
                   Organization := CSR_O req |};
     Issuer := {| CommonName := ""; OrganizationalUnit := []; Organization := [] |};
     SubjectPublicKey := CSR_PublicKey req;
     SignedBy := 0;
     SignatureKind := ECDSA;
     SignatureHash := SHA256;
     DNSNames := CSR_Hosts req;
     NotBefore := 0;
     NotAfter := 0;
     IsCA := false |}.

(** The server's values replace subject CN, OU, O and the SANs. *)
Definition overwrite (cn ou org : string) (additionalDNSNames : list string)
    (c : Certificate) : Certificate :=
  {| Subject := {| CommonName := cn;
                   OrganizationalUnit := [ou];
                   Organization := [org] |};
     Issuer := Issuer c;
     SubjectPublicKey := SubjectPublicKey c;
     SignedBy := SignedBy c;
     SignatureKind := SignatureKind c;
     SignatureHash := SignatureHash c;
     DNSNames := cn :: ou :: additionalDNSNames;
     NotBefore := NotBefore c;
     NotAfter := NotAfter c;
     IsCA := IsCA c |}.

(** Signing fixes the issuer, the signature, the validity and the CA flag. *)
Definition sign (s : Signer) (isCA : bool) (notBefore notAfter : time.Time)
    (c : Certificate) : Certificate :=
  {| Subject := Subject c;
     Issuer := Subject (SignerCert s);
     SubjectPublicKey := SubjectPublicKey c;
     SignedBy := SignerKey s;
     SignatureKind := Kind (SubjectPublicKey (SignerCert s));
     SignatureHash := SHA256;
     DNSNames := DNSNames c;
     NotBefore := notBefore;
     NotAfter := notAfter;
     IsCA := isCA |}.

(** Modelled from the spec: [RootCA.ParseValidateAndSignCSR], which "parses
    the CSR, overwrites subject CN, OU, organization, and SANs to the values
    supplied by the server (CSR-supplied names are untrusted), then signs with
    the signer.  SANs include CN, OU, and any additional DNS names passed.
    Leaf expiry is leafExpiry." *)
Definition ParseValidateAndSignCSR (rca : RootCA) (csr : list PEMBlock)
    (cn ou org : string) (additionalDNSNames : list string) (now : time.Time)
  : res (list PEMBlock) :=
  match RootCA_Signer rca with
  | Failure e => Failure e
  | Success s =>
    match ParseCSR csr with
    | None => Failure Malformed
    | Some req =>
      let leaf := overwrite cn ou org additionalDNSNames (requested req) in
      Success [PEM_Certificate (sign s false now (now + leafExpiry rca) leaf)]
    end
  end.

(** Modelled from the spec: [RootCA.CrossSignCACertificate], which "produces
    an intermediate whose subject and public key equal those of otherRootPEM,
    signed by this RootCA's signer, with isCA=true.  Fails NotACA if the input
    is not a CA certificate or not a certificate at all." *)
Definition CrossSignCACertificate (rca : RootCA) (otherCAPEM : list PEMBlock)
  : res (list PEMBlock) :=
  match RootCA_Signer rca with
  | Failure e => Failure e
  | Success s =>
    match ParseCertificatePEM otherCAPEM with
    | None => Failure NotACA
    | Some other =>
      if IsCA other
      then Success [PEM_Certificate (sign s true (NotBefore other) (NotAfter other) other)]
      else Failure NotACA
    end
  end.

(** *** Chain validation *)

(** [child.CheckSignatureFrom(parent)]: the parent is a CA, is named as the
    issuer, and its key produced the signature. *)
Definition signs (parent child : Certificate) : bool :=
  IsCA parent
  && bool_decide (Issuer child = Subject parent)
  && (SignedBy child =? KeyID (SubjectPublicKey parent)).

(** Each certificate of the bundle is issued by the one after it. *)
Fixpoint adjacent (cs : list Certificate) : bool :=
  match cs with
  | c :: ((p :: _) as rest) => signs p c && adjacent rest
  | _ => true
  end.

(** The algorithm policy: ECDSA or RSA signatures over SHA-256/384/512, no
    RSA key below 2048 bits, no ECDSA curve below P-256, no DSA. *)
Definition approved (c : Certificate) : bool :=
  match SignatureKind c with DSA => false | _ => true end
  && match SignatureHash c with SHA1 => false | _ => true end
  && match Kind (SubjectPublicKey c) with
     | ECDSA => 256 <=? Bits (SubjectPublicKey c)
     | RSA => 2048 <=? Bits (SubjectPublicKey c)
     | DSA => false
     end.

Definition valid_at (t : time.Time) (c : Certificate) : bool :=
  (NotBefore c <=? t) && (t <=? NotAfter c).

(** The window shared by the certificates [c :: cs]: from the latest
    not-before to the earliest not-after. *)
Definition window_lo (c : Certificate) (cs : list Certificate) : time.Time :=
  foldl (fun lo c' => Z.max lo (NotBefore c')) (NotBefore c) cs.

Definition window_hi (c : Certificate) (cs : list Certificate) : time.Time :=
  foldl (fun hi c' => Z.min hi (NotAfter c')) (NotAfter c) cs.

(** A root's window meets the window [[lo, hi]]. *)
Definition overlaps (lo hi : time.Time) (root : Certificate) : bool :=
  Z.max lo (NotBefore root) <=? Z.min hi (NotAfter root).

(** The chains the bundle offers, whatever the time: the bundle up to some
    certificate that is itself a root of the pool, or that a root of the pool
    has signed, followed by that root.  [done] is the part of the bundle
    already walked. *)
Fixpoint anchored (rootPool : list Certificate) (done cs : list Certificate)
  : list (list Certificate * Certificate) :=
  match cs with
  | [] => []
  | c :: rest =>
    let upto := (done ++ [c])%list in
    (map (fun r => (if decide (r = c) then upto else (upto ++ [r])%list, r))
         (filter (fun r => r = c \/ signs r c = true) rootPool)
     ++ anchored rootPool upto rest)%list
  end.

(** The root of an anchored chain can be used: it is valid now, or, when
    expiry is allowed, its window meets that of the bundle. *)
Definition usable (allowExpiry : bool) (lo hi now : time.Time) (root : Certificate)
  : bool :=
  if allowExpiry then overlaps lo hi root else valid_at now root.

(** Modelled from the spec: [ValidateCertChain(rootPool, leafBundle,
    allowExpiry)], in the five steps of its description.  (1) parse, failing
    Malformed or Empty; (2) adjacency, failing NotAChain; (3) the time window:
    without [allowExpiry] every certificate is valid now, with it not-before
    is still enforced and the window is the intersection of all certificates'
    windows plus a valid root window, failing NoTimeOverlap when empty;
    (4) a chain from the leaf to a root of the pool through the bundle,
    failing UnknownAuthority; (5) the algorithm policy. *)
Definition ValidateCertChain (rootPool : list Certificate) (certs : list PEMBlock)
    (allowExpiry : bool) (now : time.Time) : res (list Certificate) :=
  match ParseCertificatesPEM certs with
  | None => Failure Malformed
  | Some [] => Failure Empty
  | Some ((leaf :: rest) as parsed) =>
    if negb (adjacent parsed) then Failure NotAChain
    else if negb (forallb (fun c => NotBefore c <=? now) parsed) then Failure NotYetValid
    else if negb allowExpiry && negb (forallb (fun c => now <=? NotAfter c) parsed)
    then Failure Expired
    else
      let lo := window_lo leaf rest in
      let hi := window_hi leaf rest in
      if allowExpiry && (hi <? lo) then Failure NoTimeOverlap
      else
        match anchored rootPool [] parsed with
        | [] => Failure UnknownAuthority
        | (_ :: _) as anchors =>
          match filter (fun a => usable allowExpiry lo hi now a.2) anchors with
          | [] => Failure (if allowExpiry then NoTimeOverlap else UnknownAuthority)
          | (chain, _) :: _ =>
            if forallb approved parsed then Success chain
            else Failure UnsupportedAlgorithm
          end
        end
  end.

(** *** Notions used to state the properties *)

(** A root of the pool roots the bundle: it is one of its certificates or
    has signed one. *)
Definition roots_chain (rootPool parsed : list Certificate) (r : Certificate) : Prop :=
  r ∈ rootPool /\ exists c, c ∈ parsed /\ (r = c \/ signs r c = true).

(** There is an instant at which every certificate of the bundle is valid
    together with a root that roots it. *)
Definition common_instant (rootPool parsed : list Certificate) : Prop :=
  exists t r, roots_chain rootPool parsed r
              /\ valid_at t r = true
              /\ forall c, c ∈ parsed -> valid_at t c = true.

End ca.

(** ** package ca_test *)
Module ca_test.

(** [checkSingleCert]: the result tells whether every [require] of the
    helper holds. *)
Definition checkSingleCert (certBytes : list ca.PEMBlock)
    (issuerName cn ou org : string) (additionalDNSNames : list string) : bool :=
  match ca.ParseCertificatesPEM certBytes with
  | None => false
  | Some [c] =>
    bool_decide (issuerName = ca.CommonName (ca.Issuer c))
    && bool_decide (cn = ca.CommonName (ca.Subject c))
    && bool_decide ([ou] = ca.OrganizationalUnit (ca.Subject c))
    && bool_decide ([org] = ca.Organization (ca.Subject c))
    && bool_decide (length (ca.DNSNames c) = (length additionalDNSNames + 2)%nat)
    && forallb (fun dnsName => bool_decide (dnsName ∈ ca.DNSNames c))
               (additionalDNSNames ++ [cn; ou])%list
  | Some _ => false
  end.

End ca_test.

(** ** Sample values

    A dispatcher with the default configuration in which node [node-1] has
    registered once, and the requests sent on its behalf. *)
Module sample.

Definition store0 : state.MemoryStore :=
  {| state.nodes := ∅; state.tasks := ∅ |}.

Definition register1 : api.RegisterRequest :=
  {| api.Register_Spec := {| api.NodeSpec_ID := "node-1" |} |}.

Definition d0 : dispatcher.Dispatcher := dispatcher.New store0 dispatcher.DefaultConfig.

(** [node-1] registers at time 0 and is given the session [session-1]. *)
Definition d1 : dispatcher.Dispatcher :=
  (dispatcher.Register d0 register1 "session-1" 0 0).2.

Definition rn1 : dispatcher.registeredNode :=
  {| dispatcher.rn_SessionID := "session-1";
     dispatcher.rn_Heartbeat :=
       {| heartbeat.timeout := 13500000000; heartbeat.deadline := 13500000000 |};
     dispatcher.rn_Tasks := [];
     dispatcher.rn_Node :=
       {| api.Spec := {| api.NodeSpec_ID := "node-1" |};
          api.Status := {| api.State := api.NodeStatus_READY |} |} |}.

(** Tasks [T1] and [T2] are assigned to [node-1], [T9] to another node. *)
Definition T1 : api.Task :=
  {| api.Task_ID := "T1"; api.Task_NodeID := "node-1"; api.Task_Status := 1 |}.
Definition T2 : api.Task :=
  {| api.Task_ID := "T2"; api.Task_NodeID := "node-1"; api.Task_Status := 1 |}.
Definition T3 : api.Task :=
  {| api.Task_ID := "T3"; api.Task_NodeID := "node-1"; api.Task_Status := 0 |}.
Definition T9 : api.Task :=
  {| api.Task_ID := "T9"; api.Task_NodeID := "node-2"; api.Task_Status := 1 |}.

Definition store2 : state.MemoryStore :=
  {| state.nodes := state.nodes (dispatcher.d_store d1);
     state.tasks := <["T1" := T1]> (<["T2" := T2]> (<["T9" := T9]> ∅)) |}.

Definition d2 : dispatcher.Dispatcher := dispatcher.set_store d1 store2.

Definition updates : list api.TaskStatusUpdate :=
  [ {| api.Update_ID := "T1"; api.Update_Status := 5 |};
    {| api.Update_ID := "T2"; api.Update_Status := 7 |} ].

Definition update_ok : api.UpdateTaskStatusRequest :=
  {| api.UTS_NodeID := "node-1"; api.UTS_SessionID := "session-1";
     api.UTS_Tasks := updates |}.

Definition update_stale : api.UpdateTaskStatusRequest :=
  {| api.UTS_NodeID := "node-1"; api.UTS_SessionID := "session-0";
     api.UTS_Tasks := updates |}.

Definition update_unknown : api.UpdateTaskStatusRequest :=
  {| api.UTS_NodeID := "node-1"; api.UTS_SessionID := "session-1";
     api.UTS_Tasks := updates ++ [ {| api.Update_ID := "T7"; api.Update_Status := 2 |} ] |}.

(** A dispatcher whose base period is the largest duration. *)
Definition config_max : dispatcher.Config :=
  {| dispatcher.Addr := "";
     dispatcher.HeartbeatPeriod := 2 ^ 63 - 1;
     dispatcher.HeartbeatEpsilon := 2;
     dispatcher.GracePeriodMultiplier := 3 |}.

Definition d_max : dispatcher.Dispatcher :=
  (dispatcher.Register (dispatcher.New store0 config_max) register1 "session-1" 0 0).2.

Definition beat1 : api.HeartbeatRequest :=
  {| api.HeartbeatRequest_NodeID := "node-1";
     api.HeartbeatRequest_SessionID := "session-1" |}.

Definition beat_stale : api.HeartbeatRequest :=
  {| api.HeartbeatRequest_NodeID := "node-1";
     api.HeartbeatRequest_SessionID := "session-0" |}.

Definition session1 : api.SessionRequest :=
  {| api.SessionRequest_NodeID := "node-1";
     api.SessionRequest_SessionID := "session-1" |}.

Definition tasks1 : api.TasksRequest :=
  {| api.TasksRequest_NodeID := "node-1";
     api.TasksRequest_SessionID := "session-1" |}.

(** The node keeps its session and every send succeeds. *)
Definition env_quiet : dispatcher.StreamEnv :=
  {| dispatcher.seen := fun _ => "session-1"; dispatcher.sent := fun _ => None |}.

(** The third check of the loop finds another session on the node. *)
Definition env_revoked : dispatcher.StreamEnv :=
  {| dispatcher.seen := fun k => if (k <? 2)%nat then "session-1" else "session-2";
     dispatcher.sent := fun _ => None |}.


(** The store publishes a task for another node, then the creation of [T3]
    and the deletion of [T1]. *)
Definition queue1 : list state.Event :=
  [ state.EventCreateTask T9; state.EventCreateTask T3; state.EventDeleteTask T1 ].

(** *** Certificates

    The chain of the test-suite: a self-signed root, an intermediate signed
    by the root and a leaf signed by the intermediate, with re-dated
    variants.  Times count minutes, the tests run at time 0. *)
Definition name (cn : string) : ca.Name :=
  {| ca.CommonName := cn; ca.OrganizationalUnit := []; ca.Organization := [] |}.

Definition cert (subject issuer : string) (key signedBy : Z)
    (notBefore notAfter : time.Time) (isCA : bool) : ca.Certificate :=
  {| ca.Subject := name subject;
     ca.Issuer := name issuer;
     ca.SubjectPublicKey := {| ca.Kind := ca.ECDSA; ca.Bits := 256; ca.KeyID := key |};
     ca.SignedBy := signedBy;
     ca.SignatureKind := ca.ECDSA;
     ca.SignatureHash := ca.SHA256;
     ca.DNSNames := [];
     ca.NotBefore := notBefore;
     ca.NotAfter := notAfter;
     ca.IsCA := isCA |}.

Definition root : ca.Certificate := cert "root" "root" 3 3 (-100000) 100000 true.
Definition intermediate : ca.Certificate :=
  cert "intermediate" "root" 2 3 (-100000) 100000 true.
Definition leaf : ca.Certificate :=
  cert "leaf" "intermediate" 1 2 (-100000) 100000 false.
Definition otherRoot : ca.Certificate := cert "other" "other" 9 9 (-100000) 100000 true.

Definition expiredLeaf : ca.Certificate := cert "leaf" "intermediate" 1 2 (-600) (-1) false.
Definition expiredIntermediate : ca.Certificate :=
  cert "intermediate" "root" 2 3 (-600) (-1) true.
Definition notYetValidLeaf : ca.Certificate := cert "leaf" "intermediate" 1 2 60 120 false.
Definition notYetValidIntermediate : ca.Certificate :=
  cert "intermediate" "root" 2 3 60 120 true.
Definition staleLeaf : ca.Certificate :=
  cert "leaf" "intermediate" 1 2 (-4320) (-2880) false.
Definition recentIntermediate : ca.Certificate :=
  cert "intermediate" "root" 2 3 (-1440) 1440 true.
Definition staleRoot : ca.Certificate :=
  cert "root" "root" 3 3 (-1576800) (-1051200) true.

Definition chain (certs : list ca.Certificate) : list ca.PEMBlock :=
  map ca.PEM_Certificate certs.

(** Two root authorities with their signers. *)
Definition rootCert (cn : string) (key : Z) : ca.Certificate :=
  cert cn cn key key 0 10512000 true.

Definition rootCA1 : ca.RootCA :=
  {| ca.Certs := chain [rootCert "rootCN" 11];
     ca.Pool := [rootCert "rootCN" 11];
     ca.signer := Some {| ca.SignerCert := rootCert "rootCN" 11; ca.SignerKey := 11;
                          ca.SignerIntermediates := [] |};
     ca.leafExpiry := 129600 |}.

Definition rootCA2 : ca.RootCA :=
  {| ca.Certs := chain [rootCert "rootCN2" 12];
     ca.Pool := [rootCert "rootCN2" 12];
     ca.signer := Some {| ca.SignerCert := rootCert "rootCN2" 12; ca.SignerKey := 12;
                          ca.SignerIntermediates := [] |};
     ca.leafExpiry := 129600 |}.

(** The request of the malicious-CSR test. *)
Definition maliciousCSR : ca.CertificateRequest :=
  {| ca.CSR_CN := "maliciousCN";
     ca.CSR_O := ["maliciousOrg"];
     ca.CSR_OU := ["maliciousOU"];
     ca.CSR_L := ["maliciousLocality"];
     ca.CSR_Hosts := ["docker.com"];
     ca.CSR_PublicKey := {| ca.Kind := ca.ECDSA; ca.Bits := 256; ca.KeyID := 21 |} |}.

End sample.

(** * Properties *)

Import dispatcher.

(** ** 64-bit arithmetic *)

Lemma wrap64_id z : in_int64 z -> wrap64 z = z.
Proof.
  unfold in_int64, wrap64. intros H.
  rewrite Z.mod_small by lia. lia.
Qed.

(** ** The store *)

(** The transaction of [Register] cannot fail: what [Create] refuses,
    [Update] accepts. *)
Lemma Register_tx_succeeds n tx :
  Register_tx n tx =
  (None, {| state.nodes := <[api.NodeSpec_ID (api.Spec n) := n]> (state.nodes tx);
            state.tasks := state.tasks tx |}).
Proof.
  unfold Register_tx, state.Nodes_Create, state.Nodes_Update.
  destruct (state.nodes tx !! api.NodeSpec_ID (api.Spec n)) eqn:E; simpl.
  - destruct (decide (state_ErrExist ≠ state_ErrExist)) as [H|_]; [congruence|].
    by rewrite E.
  - reflexivity.
Qed.

Lemma sample_d1_node : d_nodes sample.d1 !! "node-1" = Some sample.rn1.
Proof. vm_compute. reflexivity. Qed.

(** ** The period chooser *)

(** [Choose] returns exactly when the bound of its draw is positive. *)
Lemma Choose_safe_returns pc draw :
  Choose_safe pc -> exists p, Choose pc draw = Returned p.
Proof.
  unfold Choose_safe, Choose, rand.Int63n. intros [H|H].
  - destruct (0 <? epsilon pc) eqn:E; [apply Z.ltb_lt in E; lia|]. eauto.
  - destruct (0 <? epsilon pc); [|eauto].
    destruct (wrap64 (2 * epsilon pc) <=? 0) eqn:E; [apply Z.leb_le in E; lia|].
    eauto.
Qed.

Lemma Choose_returns_safe pc draw p :
  Choose pc draw = Returned p -> Choose_safe pc.
Proof.
  unfold Choose_safe, Choose, rand.Int63n.
  destruct (0 <? epsilon pc) eqn:E.
  - destruct (wrap64 (2 * epsilon pc) <=? 0) eqn:E'; [discriminate|].
    apply Z.leb_gt in E'. intros _. by right.
  - apply Z.ltb_ge in E. intros _. by left.
Qed.

(** ** Register *)

(** What Register does with the session identifier.  For a node that is
    already in the registered-node map no session identifier is allocated:
    the identifier [newID] that a fresh registration would use is ignored,
    the node keeps the session identifier it had, and the response carries
    that same identifier.  A new session identifier is allocated, stored and
    returned only when the node is absent from the map. *)
Lemma Register_session d r newID draw now :
  let id := api.NodeSpec_ID (api.Register_Spec r) in
  (forall rn, d_nodes d !! id = Some rn ->
     exists resp d' rn',
       Register d r newID draw now = (Returned (Ok resp), d')
       /\ api.Response_SessionID resp = rn_SessionID rn
       /\ d_nodes d' !! id = Some rn'
       /\ rn_SessionID rn' = rn_SessionID rn)
  /\ (d_nodes d !! id = None -> Choose_safe (d_periodChooser d) ->
      exists resp d' rn',
        Register d r newID draw now = (Returned (Ok resp), d')
        /\ api.Response_SessionID resp = newID
        /\ d_nodes d' !! id = Some rn'
        /\ rn_SessionID rn' = newID).
Proof.
  intros id. split.
  - intros rn Hrn. unfold Register. fold id. rewrite Hrn.
    unfold state.Update. rewrite Register_tx_succeeds. simpl.
    do 3 eexists. split; [reflexivity|]. simpl.
    split; [reflexivity|]. rewrite lookup_insert_eq. split; reflexivity.
  - intros Hnone Hsafe. unfold Register. fold id. rewrite Hnone.
    destruct (Choose_safe_returns _ draw Hsafe) as [p Hp].
    unfold registerNode. rewrite Hp.
    unfold state.Update. rewrite Register_tx_succeeds. simpl.
    do 3 eexists. split; [reflexivity|]. simpl.
    split; [reflexivity|]. rewrite lookup_insert_eq. split; reflexivity.
Qed.

Lemma Register_session_sample :
  (exists resp d' rn',
     Register sample.d1 sample.register1 "session-2" 0 1 = (Returned (Ok resp), d')
     /\ api.Response_SessionID resp = rn_SessionID sample.rn1
     /\ d_nodes d' !! "node-1" = Some rn'
     /\ rn_SessionID rn' = rn_SessionID sample.rn1)
  /\ (exists resp d' rn',
       Register sample.d0 sample.register1 "session-1" 0 0 = (Returned (Ok resp), d')
       /\ api.Response_SessionID resp = "session-1"
       /\ d_nodes d' !! "node-1" = Some rn'
       /\ rn_SessionID rn' = "session-1").
Proof.
  split.
  - apply (proj1 (Register_session
                    sample.d1 sample.register1 "session-2" 0 1) sample.rn1).
    vm_compute. reflexivity.
  - apply (proj2 (Register_session
                    sample.d0 sample.register1 "session-1" 0 0)).
    + vm_compute. reflexivity.
    + right. vm_compute. reflexivity.
Qed.

(** C1.  The code does not do what the claim states.  [node-1] is
    registered under [session-1]; it registers again while the identifier
    source would hand out [session-2]; [Register] finds the node in the map,
    skips [registerNode] and answers with [session-1], the session the node
    already had.  The note at the end of [Register] names the claimed
    behaviour, a new session at each registration, as the right one. *)
Theorem Register_present_session_reused :
  d_nodes sample.d1 !! "node-1" = Some sample.rn1
  /\ rn_SessionID sample.rn1 = "session-1"
  /\ (Register sample.d1 sample.register1 "session-2" 0 1).1
     = Returned (Ok {| api.Response_NodeID := "node-1";
                       api.Response_SessionID := "session-1" |})
  /\ ~ (forall d r rn newID draw now resp d',
          d_nodes d !! api.NodeSpec_ID (api.Register_Spec r) = Some rn ->
          Register d r newID draw now = (Returned (Ok resp), d') ->
          api.Response_SessionID resp <> rn_SessionID rn).
Proof.
  split; [exact sample_d1_node|].
  split; [reflexivity|].
  split; [vm_compute; reflexivity|].
  intros H.
  destruct (Register sample.d1 sample.register1 "session-2" 0 1) as [o d'] eqn:E.
  assert (o = Returned (Ok {| api.Response_NodeID := "node-1";
                              api.Response_SessionID := "session-1" |})) as ->.
  { change o with (o, d').1. rewrite <- E. vm_compute. reflexivity. }
  apply (H sample.d1 sample.register1 sample.rn1 "session-2" 0 1 _ d'
           sample_d1_node E).
  reflexivity.
Qed.

(** ** Heartbeat expiry *)

Lemma nodeDown_nodes d id : d_nodes (nodeDown d id).2 = delete id (d_nodes d).
Proof.
  unfold nodeDown, state.Update, state.Nodes_Update. simpl.
  by destruct (state.nodes (d_store d) !! id).
Qed.

(** C4.  When the heartbeat timer of a registered node fires, the callback
    deletes the node from the registered-node map and leaves every other
    entry alone; the store row of the node, when the store has one, is
    replaced by a row of status DOWN.  The callback returns nothing to
    anyone: it yields the new state and the log, and the log grows by one
    line exactly when the store refused the update, the store being then
    unchanged. *)
Theorem timer_fires_node_down d log nid rn now :
  d_nodes d !! nid = Some rn ->
  heartbeat.fires (rn_Heartbeat rn) now = true ->
  let w' := timer_fires now nid (d, log) in
  d_nodes w'.1 = delete nid (d_nodes d)
  /\ d_nodes w'.1 !! nid = None
  /\ (forall row, state.nodes (d_store d) !! nid = Some row ->
        state.nodes (d_store w'.1) !! nid = Some (down_row nid)
        /\ api.State (api.Status (down_row nid)) = api.NodeStatus_DOWN
        /\ w'.2 = log)
  /\ (state.nodes (d_store d) !! nid = None ->
        d_store w'.1 = d_store d
        /\ exists line, w'.2 = (log ++ [line])%list).
Proof.
  intros Hrn Hfire w'. subst w'. unfold timer_fires. simpl.
  rewrite Hrn, Hfire. unfold registerNode_callback. simpl.
  pose proof (nodeDown_nodes d nid) as Hn.
  unfold nodeDown, state.Update, state.Nodes_Update in *. simpl in *.
  destruct (state.nodes (d_store d) !! nid) as [row|] eqn:E; simpl in *.
  - split; [done|]. split; [apply lookup_delete_eq|].
    split; [|done]. intros row' _. by rewrite lookup_insert_eq.
  - split; [done|]. split; [apply lookup_delete_eq|].
    split; [done|]. intros _. split; [done|]. eauto.
Qed.

Lemma timer_fires_node_down_witness :
  let w' := timer_fires 13500000000 "node-1" (sample.d1, []) in
  d_nodes w'.1 = delete "node-1" (d_nodes sample.d1)
  /\ d_nodes w'.1 !! "node-1" = None
  /\ (forall row, state.nodes (d_store sample.d1) !! "node-1" = Some row ->
        state.nodes (d_store w'.1) !! "node-1" = Some (down_row "node-1")
        /\ api.State (api.Status (down_row "node-1")) = api.NodeStatus_DOWN
        /\ w'.2 = [])
  /\ (state.nodes (d_store sample.d1) !! "node-1" = None ->
        d_store w'.1 = d_store sample.d1
        /\ exists line, w'.2 = ([] ++ [line])%list).
Proof.
  apply (timer_fires_node_down sample.d1 [] "node-1" sample.rn1 13500000000).
  - vm_compute. reflexivity.
  - vm_compute. reflexivity.
Defined.

(** ** UpdateTaskStatus *)

Lemma UpdateTaskStatus_tx_all ts tx :
  Forall (known (state.tasks tx)) ts ->
  UpdateTaskStatus_tx ts tx =
  (None, {| state.nodes := state.nodes tx;
            state.tasks := apply_updates ts (state.tasks tx) |}).
Proof.
  revert tx. induction ts as [|t ts IH]; intros tx Hall.
  - by destruct tx.
  - inversion Hall as [|? ? [row Hrow] Hrest]; subst.
    simpl. unfold state.Tasks_Update. simpl. rewrite Hrow.
    rewrite IH; [reflexivity|]. simpl.
    eapply Forall_impl; [exact Hrest|].
    intros t' [row' Hrow']. unfold known.
    apply lookup_insert_is_Some'. right. eauto.
Qed.

Lemma UpdateTaskStatus_tx_some ts tx :
  ~ Forall (known (state.tasks tx)) ts ->
  exists tx', UpdateTaskStatus_tx ts tx = (Some state_ErrNotExist, tx').
Proof.
  revert tx. induction ts as [|t ts IH]; intros tx Hnot.
  - destruct Hnot. constructor.
  - simpl. unfold state.Tasks_Update. simpl.
    destruct (state.tasks tx !! api.Update_ID t) as [row|] eqn:E; [|eauto].
    apply IH. simpl. intros Hrest. apply Hnot. constructor; [by exists row|].
    eapply Forall_impl; [exact Hrest|].
    intros t' Hk. unfold known in *.
    apply lookup_insert_is_Some' in Hk as [Hid|Hk]; [|done].
    rewrite <- Hid. by exists row.
Qed.

Lemma set_store_same d : set_store d (d_store d) = d.
Proof. by destruct d. Qed.

Lemma apply_updates_snoc ts t m :
  apply_updates (ts ++ [t]) m = <[api.Update_ID t := status_row t]> (apply_updates ts m).
Proof. unfold apply_updates. by rewrite foldl_app. Qed.

Lemma apply_updates_other ts m id :
  (forall t, t ∈ ts -> api.Update_ID t <> id) ->
  apply_updates ts m !! id = m !! id.
Proof.
  induction ts as [|t ts IH] using rev_ind; intros Hno; [done|].
  rewrite apply_updates_snoc, lookup_insert_ne.
  - apply IH. intros t' Ht'. apply Hno, elem_of_app. by left.
  - apply Hno, elem_of_app. right. by left.
Qed.

Lemma apply_updates_dom ts m :
  Forall (known m) ts -> dom (apply_updates ts m) = dom m.
Proof.
  induction ts as [|t ts IH] using rev_ind; intros Hall; [done|].
  apply Forall_app in Hall as [Hts Ht]. inversion Ht as [|? ? Hk _]; subst.
  rewrite apply_updates_snoc, dom_insert_lookup_L; [by apply IH|].
  unfold known in Hk. apply elem_of_dom. rewrite IH by done. by apply elem_of_dom.
Qed.

(** C5.  For a request whose node is registered: a session identifier that
    differs from the node's fails with InvalidSession and leaves the
    dispatcher, store included, as it was; otherwise the updates go through
    one store transaction.  When every task named is in the store the
    transaction commits all of them, in order: each named row then carries
    the identifier and the status of the last update that names it, the rows
    of the tasks that are not named and the node rows are as before.  When
    some task named is not in the store the call fails and the store is as it
    was, none of the updates being applied. *)
Theorem UpdateTaskStatus_session_transaction d r rn :
  d_nodes d !! api.UTS_NodeID r = Some rn ->
  (rn_SessionID rn <> api.UTS_SessionID r ->
     UpdateTaskStatus d r = (Err InvalidSession, d))
  /\ (rn_SessionID rn = api.UTS_SessionID r ->
      (Forall (known (state.tasks (d_store d))) (api.UTS_Tasks r) ->
         let written :=
           foldl (fun m t =>
                    <[api.Update_ID t :=
                        {| api.Task_ID := api.Update_ID t;
                           api.Task_NodeID := "";
                           api.Task_Status := api.Update_Status t |}]> m)
                 (state.tasks (d_store d)) (api.UTS_Tasks r) in
         UpdateTaskStatus d r =
         (Ok tt,
          set_store d {| state.nodes := state.nodes (d_store d);
                         state.tasks := written |})
         /\ (forall before t after,
               api.UTS_Tasks r = (before ++ t :: after)%list ->
               (forall t', t' ∈ after -> api.Update_ID t' <> api.Update_ID t) ->
               exists row,
                 written !! api.Update_ID t = Some row
                 /\ api.Task_ID row = api.Update_ID t
                 /\ api.Task_Status row = api.Update_Status t)
         /\ (forall id,
               (forall t, t ∈ api.UTS_Tasks r -> api.Update_ID t <> id) ->
               written !! id = state.tasks (d_store d) !! id))
      /\ (~ Forall (known (state.tasks (d_store d))) (api.UTS_Tasks r) ->
          exists e, UpdateTaskStatus d r = (Err e, d))).
Proof.
  intros Hrn. unfold UpdateTaskStatus, checkSessionID. rewrite Hrn.
  split.
  - intros Hne. by destruct (decide (rn_SessionID rn ≠ api.UTS_SessionID r)).
  - intros Heq.
    destruct (decide (rn_SessionID rn ≠ api.UTS_SessionID r)); [done|].
    unfold state.Update. split.
    + intros Hall.
      change (foldl (fun m t =>
                       <[api.Update_ID t :=
                           {| api.Task_ID := api.Update_ID t;
                              api.Task_NodeID := "";
                              api.Task_Status := api.Update_Status t |}]> m)
                    (state.tasks (d_store d)) (api.UTS_Tasks r))
        with (apply_updates (api.UTS_Tasks r) (state.tasks (d_store d))).
      split; [by rewrite UpdateTaskStatus_tx_all|]. split.
      * intros before t after Hsplit Hlast.
        exists {| api.Task_ID := api.Update_ID t; api.Task_NodeID := "";
                  api.Task_Status := api.Update_Status t |}.
        split; [|done]. rewrite Hsplit.
        replace (before ++ t :: after)%list with ((before ++ [t]) ++ after)%list
          by (by rewrite <- app_assoc).
        unfold apply_updates. rewrite foldl_app.
        fold (apply_updates (before ++ [t]) (state.tasks (d_store d))).
        fold (apply_updates after
                (apply_updates (before ++ [t]) (state.tasks (d_store d)))).
        rewrite apply_updates_other by done.
        rewrite apply_updates_snoc. apply lookup_insert_eq.
      * intros id Hno. by apply apply_updates_other.
    + intros Hnot.
      destruct (UpdateTaskStatus_tx_some _ _ Hnot) as [tx' Htx].
      rewrite Htx, set_store_same. eauto.
Qed.

Lemma sample_d2_node : d_nodes sample.d2 !! "node-1" = Some sample.rn1.
Proof. vm_compute. reflexivity. Qed.

Lemma UpdateTaskStatus_session_transaction_witness :
  UpdateTaskStatus sample.d2 sample.update_stale = (Err InvalidSession, sample.d2)
  /\ (exists d' row1 row2,
        UpdateTaskStatus sample.d2 sample.update_ok = (Ok tt, d')
        /\ state.tasks (d_store d') !! "T1" = Some row1 /\ api.Task_Status row1 = 5
        /\ state.tasks (d_store d') !! "T2" = Some row2 /\ api.Task_Status row2 = 7
        /\ state.tasks (d_store d') !! "T9" = Some sample.T9)
  /\ exists e, UpdateTaskStatus sample.d2 sample.update_unknown = (Err e, sample.d2).
Proof.
  split; [|split].
  - apply (proj1 (UpdateTaskStatus_session_transaction
                    sample.d2 sample.update_stale sample.rn1 sample_d2_node)).
    vm_compute. discriminate.
  - destruct (proj1 (proj2 (UpdateTaskStatus_session_transaction
                              sample.d2 sample.update_ok sample.rn1 sample_d2_node)
                       eq_refl)) as (Hrun & Hnamed & Hother).
    { repeat constructor; vm_compute; eauto. }
    destruct (Hnamed [] {| api.Update_ID := "T1"; api.Update_Status := 5 |}
                [ {| api.Update_ID := "T2"; api.Update_Status := 7 |} ] eq_refl)
      as (row1 & Hrow1 & _ & Hst1).
    { intros t' Ht'. apply elem_of_cons in Ht' as [->|Ht']; [discriminate|].
      by apply elem_of_nil in Ht'. }
    destruct (Hnamed [ {| api.Update_ID := "T1"; api.Update_Status := 5 |} ]
                {| api.Update_ID := "T2"; api.Update_Status := 7 |} [] eq_refl)
      as (row2 & Hrow2 & _ & Hst2).
    { intros t' Ht'. by apply elem_of_nil in Ht'. }
    eexists _, row1, row2. split; [exact Hrun|]. simpl.
    split; [exact Hrow1|]. split; [exact Hst1|].
    split; [exact Hrow2|]. split; [exact Hst2|].
    refine (eq_trans (Hother "T9" _) _); [|vm_compute; reflexivity].
    intros t Ht. apply elem_of_cons in Ht as [->|Ht]; [discriminate|].
    apply elem_of_cons in Ht as [->|Ht]; [discriminate|]. by apply elem_of_nil in Ht.
  - apply (proj2 (proj2 (UpdateTaskStatus_session_transaction
                           sample.d2 sample.update_unknown sample.rn1 sample_d2_node)
                    eq_refl)).
    intros H. apply Forall_app in H as [_ H].
    inversion H as [|? ? [row Hrow] _]. vm_compute in Hrow. discriminate.
Defined.

(** ** Heartbeat *)

Lemma wrap64_high z : 2 ^ 63 <= z < 2 ^ 64 -> wrap64 z = z - 2 ^ 64.
Proof.
  unfold wrap64. intros H.
  replace (z + 2 ^ 63) with ((z - 2 ^ 63) + 1 * 2 ^ 64) by lia.
  rewrite Z.mod_add by lia. rewrite Z.mod_small by lia. lia.
Qed.

(** Without overflow the chosen period is the base period moved by less
    than epsilon. *)
Lemma Choose_bounds pc draw p :
  0 < epsilon pc ->
  in_int64 (period pc - epsilon pc) ->
  in_int64 (period pc + epsilon pc) ->
  Choose pc draw = Returned p ->
  period pc - epsilon pc <= p < period pc + epsilon pc.
Proof.
  unfold Choose, rand.Int63n, in_int64. intros Heps Hlo Hhi.
  destruct (0 <? epsilon pc) eqn:E; [|apply Z.ltb_ge in E; lia].
  destruct (wrap64 (2 * epsilon pc) <=? 0) eqn:En; [discriminate|].
  apply Z.leb_gt in En.
  assert (2 * epsilon pc < 2 ^ 63) as Hsmall.
  { destruct (Z_lt_dec (2 * epsilon pc) (2 ^ 63)) as [|Hge]; [done|].
    rewrite wrap64_high in En by lia. lia. }
  rewrite (wrap64_id (2 * epsilon pc)) in * by (unfold in_int64; lia).
  pose proof (Z.mod_pos_bound draw (2 * epsilon pc) ltac:(lia)) as Hr.
  rewrite (wrap64_id (draw `mod` (2 * epsilon pc) - epsilon pc))
    by (unfold in_int64; lia).
  rewrite wrap64_id by (unfold in_int64; lia).
  intros [= <-]. lia.
Qed.

(** C7 (amended).  When the configured base period and epsilon, with
    epsilon > 0, are such that base-ε and base+ε are both representable as
    64-bit durations, then for every value of the random draw the period
    returned by a successful Heartbeat call lies in [base-ε, base+ε) and so
    in [base-ε, base+ε]; the node's timer is given that period multiplied by
    the grace-period multiplier, in 64-bit arithmetic, as its time-to-live,
    and its deadline is reset to that time-to-live from now. *)
Theorem Heartbeat_period_bounds d r draw now resp d' :
  let base := period (d_periodChooser d) in
  let eps := epsilon (d_periodChooser d) in
  0 < eps ->
  in_int64 (base - eps) ->
  in_int64 (base + eps) ->
  Heartbeat d r draw now = (Returned (Ok resp), d') ->
  (base - eps <= api.Period resp < base + eps)
  /\ (base - eps <= api.Period resp <= base + eps)
  /\ exists node',
       d_nodes d' !! api.HeartbeatRequest_NodeID r = Some node'
       /\ let grace := wrap64 (api.Period resp * d_gracePeriodMultiplier d) in
          heartbeat.timeout (rn_Heartbeat node') = grace
          /\ heartbeat.deadline (rn_Heartbeat node') = now + grace
          /\ (in_int64 (api.Period resp * d_gracePeriodMultiplier d) ->
              grace = api.Period resp * d_gracePeriodMultiplier d).
Proof.
  intros base eps Heps Hlo Hhi. unfold Heartbeat.
  destruct (d_nodes d !! api.HeartbeatRequest_NodeID r) as [node|]; [|discriminate].
  destruct (Choose (d_periodChooser d) draw) as [p|] eqn:Hp; [|discriminate].
  destruct (decide (rn_SessionID node ≠ api.HeartbeatRequest_SessionID r));
    [discriminate|].
  intros [= <- <-]. simpl.
  pose proof (Choose_bounds _ _ _ Heps Hlo Hhi Hp) as Hb. fold base eps in Hb.
  split; [lia|]. split; [lia|].
  eexists. rewrite lookup_insert_eq. split; [reflexivity|]. simpl.
  split; [reflexivity|]. split; [reflexivity|]. apply wrap64_id.
Qed.

Lemma Heartbeat_period_bounds_witness :
  exists resp d',
    Heartbeat sample.d1 sample.beat1 7 1000 = (Returned (Ok resp), d')
    /\ 4500000000 <= api.Period resp <= 5500000000
    /\ exists node',
         d_nodes d' !! "node-1" = Some node'
         /\ heartbeat.timeout (rn_Heartbeat node') = api.Period resp * 3
         /\ heartbeat.deadline (rn_Heartbeat node') = 1000 + api.Period resp * 3.
Proof.
  destruct (Heartbeat sample.d1 sample.beat1 7 1000) as [o d'] eqn:E.
  assert (o = Returned (Ok {| api.Period := 4500000007 |})) as ->.
  { change o with (o, d').1. rewrite <- E. vm_compute. reflexivity. }
  destruct (Heartbeat_period_bounds sample.d1 sample.beat1 7 1000 _ d'
              ltac:(reflexivity)
              ltac:(vm_compute; split; [discriminate|reflexivity])
              ltac:(vm_compute; split; [discriminate|reflexivity])
              E) as (_ & Hb & node' & Hn & Ht & Hd & Hg).
  exists {| api.Period := 4500000007 |}, d'.
  split; [reflexivity|]. split; [exact Hb|].
  exists node'. split; [exact Hn|].
  rewrite Hd, Ht. simpl. split; reflexivity.
Defined.

(** C7, as stated, fails at the end of the 64-bit range: with the base
    period 2^63-1 and epsilon 2 the draw 3 makes the adjustment +1, the sum
    wraps around, and the period returned is -2^63. *)
Lemma Heartbeat_period_bounds_counterexample :
  epsilon (d_periodChooser sample.d_max) = 2
  /\ period (d_periodChooser sample.d_max) = 2 ^ 63 - 1
  /\ (Heartbeat sample.d_max sample.beat1 3 0).1
     = Returned (Ok {| api.Period := - 2 ^ 63 |})
  /\ ~ (2 ^ 63 - 1 - 2 <= - 2 ^ 63 <= 2 ^ 63 - 1 + 2)
  /\ ~ (forall d r draw now resp d',
          0 < epsilon (d_periodChooser d) ->
          Heartbeat d r draw now = (Returned (Ok resp), d') ->
          period (d_periodChooser d) - epsilon (d_periodChooser d)
          <= api.Period resp
          <= period (d_periodChooser d) + epsilon (d_periodChooser d)).
Proof.
  split; [reflexivity|]. split; [reflexivity|].
  assert ((Heartbeat sample.d_max sample.beat1 3 0).1
          = Returned (Ok {| api.Period := - 2 ^ 63 |})) as Hrun
    by (vm_compute; reflexivity).
  split; [exact Hrun|]. split; [lia|].
  intros H.
  destruct (Heartbeat sample.d_max sample.beat1 3 0) as [o d'] eqn:E.
  simpl in Hrun. subst o.
  specialize (H sample.d_max sample.beat1 3 0 _ d' ltac:(reflexivity) E).
  change (period (d_periodChooser sample.d_max)) with (2 ^ 63 - 1) in H.
  change (epsilon (d_periodChooser sample.d_max)) with 2 in H.
  simpl api.Period in H. lia.
Qed.

(** *** Stale heartbeats *)

(** No handler touches the period chooser. *)
Lemma Register_periodChooser d r newID draw now :
  d_periodChooser (Register d r newID draw now).2 = d_periodChooser d.
Proof.
  unfold Register, registerNode.
  destruct (d_nodes d !! api.NodeSpec_ID (api.Register_Spec r)); simpl.
  - by destruct (state.Update _ _) as [[?|] ?].
  - destruct (Choose (d_periodChooser d) draw); simpl; [|done].
    by destruct (state.Update _ _) as [[?|] ?].
Qed.

Lemma Heartbeat_periodChooser d r draw now :
  d_periodChooser (Heartbeat d r draw now).2 = d_periodChooser d.
Proof.
  unfold Heartbeat.
  destruct (d_nodes d !! api.HeartbeatRequest_NodeID r); [|done].
  destruct (Choose (d_periodChooser d) draw); [|done].
  by destruct (decide _).
Qed.

Lemma UpdateTaskStatus_periodChooser d r :
  d_periodChooser (UpdateTaskStatus d r).2 = d_periodChooser d.
Proof.
  unfold UpdateTaskStatus.
  destruct (d_nodes d !! api.UTS_NodeID r); [|done].
  destruct (checkSessionID _ _); [done|].
  by destruct (state.Update _ _) as [[?|] ?].
Qed.

Lemma nodeDown_periodChooser d id :
  d_periodChooser (nodeDown d id).2 = d_periodChooser d.
Proof.
  unfold nodeDown. by destruct (state.Update _ _) as [[?|] ?].
Qed.

(** A node enters the map through [registerNode] only, that is after
    [Choose] has returned. *)
Lemma Register_nodes_safe d r newID draw now id rn :
  d_nodes (Register d r newID draw now).2 !! id = Some rn ->
  is_Some (d_nodes d !! id) \/ Choose_safe (d_periodChooser d).
Proof.
  unfold Register, registerNode.
  destruct (d_nodes d !! api.NodeSpec_ID (api.Register_Spec r)) as [rn0|] eqn:E; simpl.
  - destruct (state.Update _ _) as [[?|] ?]; simpl;
      (destruct (decide (api.NodeSpec_ID (api.Register_Spec r) = id)) as [<-|Hne];
       [intros _; left; eauto | rewrite lookup_insert_ne by done; intros H; left; eauto]).
  - destruct (Choose (d_periodChooser d) draw) as [p|] eqn:Hp; simpl.
    + intros _. right. eapply Choose_returns_safe, Hp.
    + intros H. left. eauto.
Qed.

Lemma UpdateTaskStatus_nodes d r :
  d_nodes (UpdateTaskStatus d r).2 = d_nodes d.
Proof.
  unfold UpdateTaskStatus.
  destruct (d_nodes d !! api.UTS_NodeID r); [|done].
  destruct (checkSessionID _ _); [done|].
  by destruct (state.Update _ _) as [[?|] ?].
Qed.

Lemma Heartbeat_nodes_present d r draw now id rn :
  d_nodes (Heartbeat d r draw now).2 !! id = Some rn -> is_Some (d_nodes d !! id).
Proof.
  unfold Heartbeat.
  destruct (d_nodes d !! api.HeartbeatRequest_NodeID r) as [node|] eqn:E; [|eauto].
  destruct (Choose (d_periodChooser d) draw); [|eauto].
  destruct (decide _); [eauto|]. simpl.
  destruct (decide (api.HeartbeatRequest_NodeID r = id)) as [<-|Hne]; [eauto|].
  rewrite lookup_insert_ne by done. eauto.
Qed.

(** In every state the dispatcher reaches, a registered node tells that the
    period chooser does not panic. *)
Lemma reachable_Choose_safe d :
  reachable d -> forall id rn, d_nodes d !! id = Some rn -> Choose_safe (d_periodChooser d).
Proof.
  induction 1 as [store c|d r newID draw now _ IH|d r _ IH|d r draw now _ IH
                 |d id' _ IH|d s _ IH]; intros id rn Hrn.
  - simpl in Hrn. by rewrite lookup_empty in Hrn.
  - rewrite Register_periodChooser.
    apply Register_nodes_safe in Hrn as [[rn0 H0]|Hs]; eauto.
  - rewrite UpdateTaskStatus_periodChooser.
    rewrite UpdateTaskStatus_nodes in Hrn. eauto.
  - rewrite Heartbeat_periodChooser.
    apply Heartbeat_nodes_present in Hrn as [rn0 H0]. eauto.
  - rewrite nodeDown_periodChooser. rewrite nodeDown_nodes in Hrn.
    apply lookup_delete_Some in Hrn as [_ Hrn]. eauto.
  - simpl in *. eauto.
Qed.

(** C9.  In every state the dispatcher reaches, a Heartbeat request for a
    registered node whose session identifier differs from the node's
    returns InvalidSession and leaves the dispatcher as it was: the timer of
    the node keeps its time-to-live and its deadline, so the stale heartbeat
    does not keep the node alive. *)
Theorem Heartbeat_stale_session d r rn draw now :
  reachable d ->
  d_nodes d !! api.HeartbeatRequest_NodeID r = Some rn ->
  rn_SessionID rn <> api.HeartbeatRequest_SessionID r ->
  Heartbeat d r draw now = (Returned (Err InvalidSession), d)
  /\ (forall rn',
        d_nodes (Heartbeat d r draw now).2 !! api.HeartbeatRequest_NodeID r = Some rn' ->
        heartbeat.timeout (rn_Heartbeat rn') = heartbeat.timeout (rn_Heartbeat rn)
        /\ heartbeat.deadline (rn_Heartbeat rn') = heartbeat.deadline (rn_Heartbeat rn)).
Proof.
  intros Hreach Hrn Hne.
  destruct (Choose_safe_returns _ draw (reachable_Choose_safe d Hreach _ _ Hrn))
    as [p Hp].
  assert (Heartbeat d r draw now = (Returned (Err InvalidSession), d)) as Heq.
  { unfold Heartbeat. rewrite Hrn, Hp. by destruct (decide _). }
  split; [exact Heq|].
  intros rn'. rewrite Heq. simpl. rewrite Hrn. by intros [= <-].
Qed.

Lemma Heartbeat_stale_session_witness :
  Heartbeat sample.d1 sample.beat_stale 7 1000 = (Returned (Err InvalidSession), sample.d1)
  /\ (forall rn',
        d_nodes (Heartbeat sample.d1 sample.beat_stale 7 1000).2 !! "node-1" = Some rn' ->
        heartbeat.timeout (rn_Heartbeat rn') = heartbeat.timeout (rn_Heartbeat sample.rn1)
        /\ heartbeat.deadline (rn_Heartbeat rn')
           = heartbeat.deadline (rn_Heartbeat sample.rn1)).
Proof.
  apply (Heartbeat_stale_session sample.d1 sample.beat_stale sample.rn1 7 1000).
  - apply reach_Register, reach_New.
  - vm_compute. reflexivity.
  - vm_compute. discriminate.
Defined.

(** ** Session *)

Lemma Session_loop_messages d sid env k n :
  Forall (fun msg => msg = {| api.Managers := [ {| api.Addr := d_addr d; api.Weight := 1 |} ];
                              api.Disconnect := false |})
         (Session_loop d sid env k n).1.
Proof.
  revert k. induction n as [|n IH]; intros k; simpl; [constructor|].
  destruct (decide (seen env k ≠ sid)); [constructor|].
  destruct (sent env k); [constructor|].
  specialize (IH (S k)). destruct (Session_loop d sid env (S k) n) as [msgs e].
  simpl in *. by constructor.
Qed.

Lemma Session_loop_runs d sid env k n :
  (forall i, (i < n)%nat -> seen env (k + i) = sid /\ sent env (k + i) = None) ->
  length (Session_loop d sid env k n).1 = n /\ (Session_loop d sid env k n).2 = Open.
Proof.
  revert k. induction n as [|n IH]; intros k Hgood; simpl; [done|].
  destruct (Hgood O ltac:(lia)) as [Hs Hn]. rewrite Nat.add_0_r in Hs, Hn.
  destruct (decide (seen env k ≠ sid)); [done|]. rewrite Hn.
  destruct (IH (S k)) as [Hl Ho].
  { intros i Hi. replace (S k + i)%nat with (k + S i)%nat by lia. apply Hgood. lia. }
  destruct (Session_loop d sid env (S k) n) as [msgs e]. simpl in *.
  by rewrite Hl.
Qed.

(** C10.  Every message emitted on a Session stream has Disconnect false
    and lists exactly one manager, the dispatcher's own address with weight
    1; and the stream does emit: as long as the session is the node's and
    the sends succeed, each round of the loop emits one message. *)
Theorem Session_messages d r env n :
  Forall (fun msg => api.Disconnect msg = false
                     /\ api.Managers msg = [ {| api.Addr := d_addr d; api.Weight := 1 |} ])
         (Session d r env n).1
  /\ (is_Some (d_nodes d !! api.SessionRequest_NodeID r) ->
      (forall i, (i < n)%nat ->
         seen env i = api.SessionRequest_SessionID r /\ sent env i = None) ->
      length (Session d r env n).1 = n /\ (Session d r env n).2 = Open).
Proof.
  unfold Session. split.
  - destruct (d_nodes d !! api.SessionRequest_NodeID r); [|constructor].
    eapply Forall_impl; [apply Session_loop_messages|].
    by intros msg ->.
  - intros [rn ->] Hgood. apply Session_loop_runs. exact Hgood.
Qed.

Lemma Session_messages_witness :
  Forall (fun msg => api.Disconnect msg = false
                     /\ api.Managers msg = [ {| api.Addr := ""; api.Weight := 1 |} ])
         (Session sample.d1 sample.session1 sample.env_quiet 3).1
  /\ length (Session sample.d1 sample.session1 sample.env_quiet 3).1 = 3%nat
  /\ (Session sample.d1 sample.session1 sample.env_quiet 3).2 = Open.
Proof.
  destruct (Session_messages sample.d1 sample.session1 sample.env_quiet 3) as [H1 H2].
  split; [exact H1|]. apply H2.
  - exists sample.rn1. exact sample_d1_node.
  - intros i _. split; reflexivity.
Defined.

(** ** Tasks *)

Lemma Tasks_message_elem m t :
  t ∈ api.Tasks (Tasks_message m) <-> exists k, m !! k = Some t.
Proof.
  unfold Tasks_message. simpl. rewrite list_elem_of_fmap. split.
  - intros [[k t'] [-> H]]. exists k. by apply elem_of_map_to_list.
  - intros [k H]. exists (k, t). split; [done|]. by apply elem_of_map_to_list.
Qed.

Lemma Tasks_message_keyed m t :
  keyed m -> t ∈ api.Tasks (Tasks_message m) <-> m !! api.Task_ID t = Some t.
Proof.
  intros Hk. rewrite Tasks_message_elem. split; [|eauto].
  intros [k H]. by rewrite (Hk _ _ H).
Qed.

Lemma keyed_insert m t : keyed m -> keyed (<[api.Task_ID t := t]> m).
Proof.
  intros Hk k t' H. apply lookup_insert_Some in H as [[<- <-]|[_ H]]; eauto.
Qed.

Lemma keyed_delete m k : keyed m -> keyed (delete k m).
Proof.
  intros Hk k' t' H. apply lookup_delete_Some in H as [_ H]. eauto.
Qed.

Lemma Tasks_apply_keyed ev m : keyed m -> keyed (Tasks_apply ev m).
Proof. destruct ev; simpl; auto using keyed_insert, keyed_delete. Qed.

Lemma view_keyed evs m : keyed m -> keyed (view m evs).
Proof.
  revert m. induction evs as [|ev evs IH]; intros m Hk; [done|].
  simpl. apply IH, Tasks_apply_keyed, Hk.
Qed.



Lemma fill_keyed (l : list api.Task) (m0 : gmap string api.Task) :
  keyed m0 -> keyed (foldl (fun m t => <[api.Task_ID t := t]> m) m0 l).
Proof.
  revert m0. induction l as [|a l IH]; intros m0 Hk; [done|].
  simpl. apply IH, keyed_insert, Hk.
Qed.

Lemma Tasks_snapshot_keyed nid s : keyed (Tasks_snapshot nid s).
Proof.
  unfold Tasks_snapshot, state.Tasks_Find_ByNodeID.
  apply fill_keyed. intros k t H. by rewrite lookup_empty in H.
Qed.


(** The message of round [j] lists the map after the first [j] events. *)
Lemma Tasks_loop_messages sid env evs ctxDone :
  forall k m j msg,
    (Tasks_loop sid env k m (channel evs ctxDone)).1 !! j = Some msg ->
    msg = Tasks_message (view m (take j evs)).
Proof.
  induction evs as [|ev evs IH]; intros k m j msg; unfold channel; simpl.
  - rewrite take_nil.
    destruct ctxDone; simpl;
      (destruct (decide (seen env k ≠ sid)); [intros H; by destruct j|]);
      (destruct (sent env k); [intros H; by destruct j|]);
      (destruct j as [|j]; [by intros [= <-]|by destruct j]).
  - destruct (decide (seen env k ≠ sid)); [intros H; by destruct j|].
    destruct (sent env k); [intros H; by destruct j|].
    specialize (IH (S k) (Tasks_apply ev m)). unfold channel in IH.
    destruct (Tasks_loop sid env (S k) (Tasks_apply ev m) _) as [msgs e].
    destruct j as [|j]; simpl; [by intros [= <-]|]. apply IH.
Qed.



(** The watch of [Tasks] delivers the task events of the queue that are
    addressed to the node. *)
Lemma Tasks_watch_delivers nid queue ev :
  ev ∈ state.Watch queue (Tasks_specifiers nid)
  <-> ev ∈ queue
      /\ exists t, api.Task_NodeID t = nid
                   /\ (ev = state.EventCreateTask t \/ ev = state.EventUpdateTask t
                       \/ ev = state.EventDeleteTask t).
Proof.
  unfold state.Watch. rewrite list_elem_of_filter. split.
  - intros [H1 H2]. split; [done|].
    destruct ev as [t|t|t|n|n|n]; simpl in H1; unfold state.TaskCheckNodeID in H1;
      simpl in H1; try done; exists t;
      (split; [|by eauto]);
      repeat (rewrite ?orb_false_r, ?andb_true_r in H1);
      apply bool_decide_unpack in H1; done.
  - intros [H2 [t [Hn Hev]]]. split; [|done].
    destruct Hev as [-> | [-> | ->]]; simpl; unfold state.TaskCheckNodeID; simpl;
      rewrite (bool_decide_true (nid = api.Task_NodeID t)) by done; done.
Qed.




(** The scenario of the task stream: the snapshot holds [T1] and [T2]; the
    creation of [T9] is for another node and is not delivered; the creation
    of [T3] and the deletion of [T1] each bring a message with the full set;
    a node whose session has changed by the third check gets two messages
    and InvalidSession. *)
Example Tasks_scenario :
  let ids (o : list api.TasksMessage * StreamEnd) :=
    (map (fun m => map api.Task_ID (api.Tasks m)) o.1, o.2) in
  ids (Tasks sample.d2 sample.tasks1 sample.env_quiet sample.queue1 false)
  = ([["T1"; "T2"]; ["T3"; "T1"; "T2"]; ["T3"; "T2"]], Open)
  /\ ids (Tasks sample.d2 sample.tasks1 sample.env_quiet sample.queue1 true)
     = ([["T1"; "T2"]; ["T3"; "T1"; "T2"]; ["T3"; "T2"]], Closed None)
  /\ ids (Tasks sample.d2 sample.tasks1 sample.env_revoked sample.queue1 false)
     = ([["T1"; "T2"]; ["T3"; "T1"; "T2"]], Closed (Some InvalidSession)).
Proof. vm_compute. repeat split. Qed.

(** ** Certificate authority *)

Import ca.

(** The test-suite's table for chain validation, at time 0. *)
Example TestValidateCertificateChain_invalids :
  let run pool certs allowExpiry := ValidateCertChain pool certs allowExpiry 0 in
  run [sample.root] [] false = Failure Empty
  /\ run [sample.root] [PEM_Garbage "malformed"] false = Failure Malformed
  /\ run [sample.root] (sample.chain [sample.leaf; sample.intermediate; sample.leaf]) false
     = Failure NotAChain
  /\ run [sample.otherRoot] (sample.chain [sample.leaf; sample.intermediate]) false
     = Failure UnknownAuthority
  /\ run [sample.root] (sample.chain [sample.expiredLeaf; sample.intermediate]) false
     = Failure Expired
  /\ run [sample.root] (sample.chain [sample.leaf; sample.expiredIntermediate]) false
     = Failure Expired
  /\ run [sample.root] (sample.chain [sample.notYetValidLeaf; sample.intermediate]) false
     = Failure NotYetValid
  /\ run [sample.root] (sample.chain [sample.leaf; sample.notYetValidIntermediate]) false
     = Failure NotYetValid
  /\ run [sample.root] (sample.chain [sample.notYetValidLeaf; sample.intermediate]) true
     = Failure NotYetValid
  /\ run [sample.root] (sample.chain [sample.leaf; sample.notYetValidIntermediate]) true
     = Failure NotYetValid
  /\ run [sample.otherRoot] (sample.chain [sample.expiredLeaf; sample.intermediate]) true
     = Failure UnknownAuthority
  /\ run [sample.root] (sample.chain [sample.staleLeaf; sample.recentIntermediate]) true
     = Failure NoTimeOverlap
  /\ run [sample.staleRoot]
         (sample.chain [sample.expiredLeaf; sample.expiredIntermediate]) true
     = Failure NoTimeOverlap.
Proof. vm_compute. repeat split. Qed.

Example TestValidateCertificateChain_valids :
  let run certs allowExpiry := ValidateCertChain [sample.root] certs allowExpiry 0 in
  run (sample.chain [sample.leaf; sample.intermediate; sample.root]) false
  = Success [sample.leaf; sample.intermediate; sample.root]
  /\ run (sample.chain [sample.leaf; sample.intermediate]) false
     = Success [sample.leaf; sample.intermediate; sample.root]
  /\ run (sample.chain [sample.intermediate]) false
     = Success [sample.intermediate; sample.root]
  /\ run (sample.chain [sample.expiredLeaf; sample.intermediate]) true
     = Success [sample.expiredLeaf; sample.intermediate; sample.root]
  /\ run (sample.chain [sample.leaf; sample.expiredIntermediate]) true
     = Success [sample.leaf; sample.expiredIntermediate; sample.root]
  /\ run (sample.chain [sample.expiredLeaf; sample.expiredIntermediate]) true
     = Success [sample.expiredLeaf; sample.expiredIntermediate; sample.root].
Proof. vm_compute. repeat split. Qed.

(** *** Signing a request *)

(** C2.  Whatever the CSR carries, the leaf returned by
    ParseValidateAndSignCSR(csr, cn, ou, org) has subject CN [cn], OU [[ou]],
    O [[org]], and its SANs are [cn], [ou] and the additional DNS names of
    the server; the names of the CSR have no influence on the result, which
    is the same for any two requests with the same public key; and every
    parseable CSR is signed when the RootCA has a signer. *)
Theorem ParseValidateAndSignCSR_server_names rca csr cn ou org additional now :
  (forall out,
     ParseValidateAndSignCSR rca csr cn ou org additional now = Success out ->
     exists leaf,
       out = [PEM_Certificate leaf]
       /\ CommonName (Subject leaf) = cn
       /\ OrganizationalUnit (Subject leaf) = [ou]
       /\ Organization (Subject leaf) = [org]
       /\ DNSNames leaf = cn :: ou :: additional
       /\ length (DNSNames leaf) = (length additional + 2)%nat
       /\ (forall n, n ∈ DNSNames leaf <-> n = cn \/ n = ou \/ n ∈ additional))
  /\ (forall s req,
        signer rca = Some s -> ParseCSR csr = Some req ->
        exists out, ParseValidateAndSignCSR rca csr cn ou org additional now = Success out)
  /\ (forall csr' req req',
        ParseCSR csr = Some req -> ParseCSR csr' = Some req' ->
        CSR_PublicKey req = CSR_PublicKey req' ->
        ParseValidateAndSignCSR rca csr' cn ou org additional now
        = ParseValidateAndSignCSR rca csr cn ou org additional now).
Proof.
  unfold ParseValidateAndSignCSR, RootCA_Signer. split; [|split].
  - intros out. destruct (signer rca) as [s|]; [|discriminate].
    destruct (ParseCSR csr) as [req|]; [|discriminate].
    intros [= <-]. eexists. split; [reflexivity|]. simpl.
    repeat (split; [reflexivity|]). split; [lia|].
    intros n. rewrite !elem_of_cons. tauto.
  - intros s req -> ->. eauto.
  - intros csr' req req' -> -> Hkey. destruct (signer rca); [|done].
    unfold overwrite, requested, sign. simpl. by rewrite Hkey.
Qed.

Lemma ParseValidateAndSignCSR_server_names_witness :
  exists leaf,
    ParseValidateAndSignCSR sample.rootCA1 [PEM_CertificateRequest sample.maliciousCSR]
      "CN" "OU" "ORG" [] 0 = Success [PEM_Certificate leaf]
    /\ CommonName (Issuer leaf) = "rootCN"
    /\ CommonName (Subject leaf) = "CN"
    /\ OrganizationalUnit (Subject leaf) = ["OU"]
    /\ Organization (Subject leaf) = ["ORG"]
    /\ DNSNames leaf = ["CN"; "OU"].
Proof.
  destruct (ParseValidateAndSignCSR_server_names sample.rootCA1
              [PEM_CertificateRequest sample.maliciousCSR] "CN" "OU" "ORG" [] 0)
    as (Hnames & Hsigned & _).
  destruct (Hsigned _ sample.maliciousCSR eq_refl eq_refl) as [out Hout].
  destruct (Hnames out Hout) as (leaf & -> & Hcn & Hou & Ho & Hdns & _).
  exists leaf. split; [exact Hout|].
  split; [by injection Hout as <-|]. done.
Defined.

(** *** Cross-signing *)

(** C8.  For a RootCA A with a signer and a RootCA B whose root certificate
    is a CA certificate, A's cross-signing of B's root certificate yields one
    certificate with the raw subject and the raw subject public key of B's,
    with the CA flag set, issued and signed by A's signer; the operation
    fails with NotACA on a certificate that is not a CA and on bytes that do
    not start with a certificate. *)
Theorem CrossSignCACertificate_subject_key (A B : RootCA) sA :
  signer A = Some sA ->
  (forall certB,
     ParseCertificatePEM (Certs B) = Some certB -> IsCA certB = true ->
     exists inter,
       CrossSignCACertificate A (Certs B) = Success [PEM_Certificate inter]
       /\ ParseCertificatePEM [PEM_Certificate inter] = Some inter
       /\ RawSubject inter = RawSubject certB
       /\ RawSubjectPublicKeyInfo inter = RawSubjectPublicKeyInfo certB
       /\ IsCA inter = true
       /\ Issuer inter = Subject (SignerCert sA)
       /\ SignedBy inter = SignerKey sA)
  /\ (forall bytes c,
        ParseCertificatePEM bytes = Some c -> IsCA c = false ->
        CrossSignCACertificate A bytes = Failure NotACA)
  /\ (forall bytes,
        ParseCertificatePEM bytes = None ->
        CrossSignCACertificate A bytes = Failure NotACA).
Proof.
  intros HsA. unfold CrossSignCACertificate, RootCA_Signer. rewrite HsA.
  split; [|split].
  - intros certB -> ->. eexists. split; [reflexivity|]. simpl. done.
  - by intros bytes c -> ->.
  - by intros bytes ->.
Qed.

Lemma CrossSignCACertificate_subject_key_witness :
  (exists inter,
     CrossSignCACertificate sample.rootCA1 (Certs sample.rootCA2)
     = Success [PEM_Certificate inter]
     /\ RawSubject inter = sample.name "rootCN2"
     /\ KeyID (RawSubjectPublicKeyInfo inter) = 12
     /\ IsCA inter = true
     /\ CommonName (Issuer inter) = "rootCN")
  /\ CrossSignCACertificate sample.rootCA1 (sample.chain [sample.leaf]) = Failure NotACA
  /\ CrossSignCACertificate sample.rootCA1 [PEM_ECPrivateKey 11] = Failure NotACA.
Proof.
  destruct (CrossSignCACertificate_subject_key sample.rootCA1 sample.rootCA2 _ eq_refl)
    as (Hok & Hleaf & Hnone).
  split; [|split].
  - destruct (Hok _ eq_refl eq_refl) as (inter & Hrun & _ & Hs & Hk & Hca & Hi & _).
    exists inter. split; [exact Hrun|]. rewrite Hs, Hk, Hi. done.
  - apply (Hleaf _ sample.leaf); reflexivity.
  - apply Hnone. reflexivity.
Defined.

(** *** Chain validation with expired certificates *)

Lemma forallb_elem {A} (f : A -> bool) (l : list A) :
  forallb f l = true <-> forall x, x ∈ l -> f x = true.
Proof.
  rewrite forallb_forall. split; intros H x Hx; apply H; by apply list_elem_of_In.
Qed.

Lemma valid_at_spec t c : valid_at t c = true <-> NotBefore c <= t <= NotAfter c.
Proof. unfold valid_at. rewrite andb_true_iff, !Z.leb_le. tauto. Qed.

Lemma window_lo_le rest lo0 t :
  foldl (fun lo c => Z.max lo (NotBefore c)) lo0 rest <= t
  <-> lo0 <= t /\ forall c, c ∈ rest -> NotBefore c <= t.
Proof.
  revert lo0. induction rest as [|c rest IH]; intros lo0; simpl.
  - split; [intros H; split; [done|]; intros c Hc; by apply elem_of_nil in Hc|tauto].
  - rewrite IH. split.
    + intros [Hm Hrest]. split; [lia|]. intros c' Hc'.
      apply elem_of_cons in Hc' as [->|Hc']; [lia|auto].
    + intros [Hlo Hall]. split.
      * pose proof (Hall c ltac:(left)). lia.
      * intros c' Hc'. apply Hall. by right.
Qed.

Lemma window_hi_ge rest hi0 t :
  t <= foldl (fun hi c => Z.min hi (NotAfter c)) hi0 rest
  <-> t <= hi0 /\ forall c, c ∈ rest -> t <= NotAfter c.
Proof.
  revert hi0. induction rest as [|c rest IH]; intros hi0; simpl.
  - split; [intros H; split; [done|]; intros c Hc; by apply elem_of_nil in Hc|tauto].
  - rewrite IH. split.
    + intros [Hm Hrest]. split; [lia|]. intros c' Hc'.
      apply elem_of_cons in Hc' as [->|Hc']; [lia|auto].
    + intros [Hhi Hall]. split.
      * pose proof (Hall c ltac:(left)). lia.
      * intros c' Hc'. apply Hall. by right.
Qed.

(** The instants at which the whole bundle is valid are those of its
    window. *)
Lemma window_valid leaf rest t :
  (forall c, c ∈ leaf :: rest -> valid_at t c = true)
  <-> window_lo leaf rest <= t <= window_hi leaf rest.
Proof.
  unfold window_lo, window_hi. rewrite window_lo_le, window_hi_ge. split.
  - intros H. pose proof (proj1 (valid_at_spec _ _) (H leaf ltac:(left))).
    repeat split; try lia; intros c Hc;
      pose proof (proj1 (valid_at_spec _ _) (H c ltac:(by right))); lia.
  - intros [[Hl Hlr] [Hh Hhr]] c Hc. apply valid_at_spec.
    apply elem_of_cons in Hc as [->|Hc]; [lia|].
    specialize (Hlr c Hc). specialize (Hhr c Hc). lia.
Qed.

Lemma overlaps_spec lo hi r :
  overlaps lo hi r = true <-> exists t, lo <= t <= hi /\ valid_at t r = true.
Proof.
  unfold overlaps. rewrite Z.leb_le. split.
  - intros H. exists (Z.max lo (NotBefore r)). rewrite valid_at_spec. lia.
  - intros (t & Ht & Hv). apply valid_at_spec in Hv. lia.
Qed.

(** The anchors of a bundle are the roots that root it. *)
Lemma anchored_sound rootPool cs :
  forall done chain r,
    (chain, r) ∈ anchored rootPool done cs -> roots_chain rootPool cs r.
Proof.
  induction cs as [|c cs IH]; intros done chain r; simpl.
  - intros H. by apply elem_of_nil in H.
  - rewrite elem_of_app, list_elem_of_fmap. intros [[r' [[= _ <-] Hr']]|H].
    + apply list_elem_of_filter in Hr' as [Hsig Hpool].
      split; [done|]. exists c. split; [by left|done].
    + apply IH in H as [Hpool (c' & Hc' & Hsig)].
      split; [done|]. exists c'. split; [by right|done].
Qed.

Lemma anchored_complete rootPool cs :
  forall done r,
    roots_chain rootPool cs r -> exists chain, (chain, r) ∈ anchored rootPool done cs.
Proof.
  induction cs as [|c cs IH]; intros done r [Hpool (c' & Hc' & Hsig)]; simpl.
  - by apply elem_of_nil in Hc'.
  - apply elem_of_cons in Hc' as [->|Hc'].
    + eexists. apply elem_of_app. left. apply list_elem_of_fmap.
      exists r. split; [reflexivity|]. by apply list_elem_of_filter.
    + destruct (IH (done ++ [c])%list r) as [chain Hchain].
      { split; [done|]. eauto. }
      exists chain. apply elem_of_app. by right.
Qed.

(** C3.  With [allowExpiry] set, validation of a bundle (a) still fails
    when one of its certificates has its not-before in the future, with
    NotYetValid once the bundle is a chain; (b) fails with NoTimeOverlap when
    the bundle is a chain rooted in the pool, has no certificate dated in the
    future, and there is no instant at which all its certificates are valid
    together with a root that roots it; (c) succeeds, whatever has expired
    by now, when no certificate is dated in the future and the bundle
    validates without [allowExpiry] at some instant. *)
Theorem ValidateCertChain_allowExpiry rootPool certs now :
  (forall parsed c,
     ParseCertificatesPEM certs = Some parsed -> c ∈ parsed -> now < NotBefore c ->
     (exists e, ValidateCertChain rootPool certs true now = Failure e)
     /\ (adjacent parsed = true ->
         ValidateCertChain rootPool certs true now = Failure NotYetValid))
  /\ (forall parsed,
        ParseCertificatesPEM certs = Some parsed ->
        adjacent parsed = true ->
        (forall c, c ∈ parsed -> NotBefore c <= now) ->
        (exists r, roots_chain rootPool parsed r) ->
        ~ common_instant rootPool parsed ->
        ValidateCertChain rootPool certs true now = Failure NoTimeOverlap)
  /\ (forall parsed t chain,
        ParseCertificatesPEM certs = Some parsed ->
        (forall c, c ∈ parsed -> NotBefore c <= now) ->
        ValidateCertChain rootPool certs false t = Success chain ->
        exists chain', ValidateCertChain rootPool certs true now = Success chain').
Proof.
  unfold ValidateCertChain. split; [|split].
  - intros parsed c -> Hc Hfuture.
    destruct parsed as [|leaf rest]; [by apply elem_of_nil in Hc|].
    assert (forallb (fun c => NotBefore c <=? now) (leaf :: rest) = false) as Hnb.
    { destruct (forallb _ _) eqn:E; [|done].
      pose proof (proj1 (forallb_elem _ _) E c Hc) as Hle.
      apply Z.leb_le in Hle. lia. }
    destruct (adjacent (leaf :: rest)); cbn [negb].
    + rewrite Hnb. cbn [negb]. eauto.
    + split; [eauto|done].
  - intros parsed -> Hadj Hnb [r0 Hr0] Hnone.
    destruct parsed as [|leaf rest].
    { destruct Hr0 as [_ (c & Hc & _)]. by apply elem_of_nil in Hc. }
    rewrite Hadj. cbn [negb].
    rewrite (proj2 (forallb_elem (fun c => NotBefore c <=? now) (leaf :: rest)))
      by (intros c Hc; apply Z.leb_le; auto).
    cbn [negb andb].
    destruct (window_hi leaf rest <? window_lo leaf rest) eqn:Hw; [done|].
    destruct (anchored_complete rootPool (leaf :: rest) [] r0 Hr0) as [chain0 Hchain0].
    destruct (anchored rootPool [] (leaf :: rest)) as [|a anchors] eqn:Ha;
      [by apply elem_of_nil in Hchain0|].
    destruct (filter _ (a :: anchors)) as [|[chain r] usables] eqn:Hf; [done|].
    exfalso. apply Hnone.
    assert ((chain, r) ∈ filter
              (fun a : list Certificate * Certificate =>
                 usable true (window_lo leaf rest) (window_hi leaf rest) now a.2)
              (a :: anchors)) as Hin by (rewrite Hf; left).
    apply list_elem_of_filter in Hin as [Hus Hin]. simpl in Hus.
    apply Is_true_true, overlaps_spec in Hus as (t & Ht & Hv).
    rewrite <- Ha in Hin. apply anchored_sound in Hin.
    exists t, r. split; [done|]. split; [done|]. by apply window_valid.
  - intros parsed t chain -> Hnb.
    destruct parsed as [|leaf rest]; [done|].
    destruct (adjacent (leaf :: rest)); [|done]. cbn [negb].
    destruct (forallb (fun c => NotBefore c <=? t) (leaf :: rest)) eqn:Hnbt; [|done].
    destruct (forallb (fun c => t <=? NotAfter c) (leaf :: rest)) eqn:Hnat; [|done].
    rewrite (proj2 (forallb_elem (fun c => NotBefore c <=? now) (leaf :: rest)))
      by (intros c Hc; apply Z.leb_le; auto).
    cbn [negb andb].
    assert (window_lo leaf rest <= t <= window_hi leaf rest) as Hwin.
    { apply window_valid. intros c Hc. apply valid_at_spec.
      pose proof (proj1 (forallb_elem _ _) Hnbt c Hc) as H1.
      pose proof (proj1 (forallb_elem _ _) Hnat c Hc) as H2.
      apply Z.leb_le in H1, H2. lia. }
    destruct (window_hi leaf rest <? window_lo leaf rest) eqn:Hw;
      [apply Z.ltb_lt in Hw; lia|].
    destruct (anchored rootPool [] (leaf :: rest)) as [|a anchors]; [done|].
    destruct (filter _ (a :: anchors)) as [|[chain0 r0] strict] eqn:Hstrict; [done|].
    assert ((chain0, r0) ∈ filter
              (fun a : list Certificate * Certificate =>
                 usable false (window_lo leaf rest) (window_hi leaf rest) t a.2)
              (a :: anchors)) as Hin by (rewrite Hstrict; left).
    apply list_elem_of_filter in Hin as [Hus Hin]. simpl in Hus.
    apply Is_true_true in Hus.
    assert ((chain0, r0) ∈ filter
              (fun a : list Certificate * Certificate =>
                 usable true (window_lo leaf rest) (window_hi leaf rest) now a.2)
              (a :: anchors)) as Hin'.
    { apply list_elem_of_filter. split; [|done]. simpl.
      apply Is_true_true, overlaps_spec. eauto. }
    clear Hstrict.
    destruct (filter _ (a :: anchors)) as [|[chain1 r1] lenient];
      [by apply elem_of_nil in Hin'|].
    destruct (forallb approved (leaf :: rest)); [eauto|done].
Qed.

Lemma ValidateCertChain_allowExpiry_witness :
  ValidateCertChain [sample.root]
    (sample.chain [sample.notYetValidLeaf; sample.intermediate]) true 0
  = Failure NotYetValid
  /\ ValidateCertChain [sample.root]
       (sample.chain [sample.staleLeaf; sample.recentIntermediate]) true 0
     = Failure NoTimeOverlap
  /\ exists chain',
       ValidateCertChain [sample.root]
         (sample.chain [sample.expiredLeaf; sample.intermediate]) true 0
       = Success chain'.
Proof.
  split; [|split].
  - apply (proj1 (ValidateCertChain_allowExpiry [sample.root]
                    (sample.chain [sample.notYetValidLeaf; sample.intermediate]) 0)
             [sample.notYetValidLeaf; sample.intermediate] sample.notYetValidLeaf).
    + reflexivity.
    + left.
    + simpl. lia.
    + reflexivity.
  - apply (proj1 (proj2 (ValidateCertChain_allowExpiry [sample.root]
                           (sample.chain [sample.staleLeaf; sample.recentIntermediate]) 0))
             [sample.staleLeaf; sample.recentIntermediate]).
    + reflexivity.
    + reflexivity.
    + intros c Hc. apply elem_of_cons in Hc as [->|Hc]; [simpl; lia|].
      apply elem_of_cons in Hc as [->|Hc]; [simpl; lia|].
      by apply elem_of_nil in Hc.
    + exists sample.root. split; [left|].
      exists sample.recentIntermediate. split; [right; left|by right].
    + intros (t & r & _ & _ & Hall).
      pose proof (proj1 (valid_at_spec _ _) (Hall sample.staleLeaf ltac:(left))) as H1.
      pose proof (proj1 (valid_at_spec _ _)
                    (Hall sample.recentIntermediate ltac:(right; left))) as H2.
      simpl in H1, H2. lia.
  - apply (proj2 (proj2 (ValidateCertChain_allowExpiry [sample.root]
                           (sample.chain [sample.expiredLeaf; sample.intermediate]) 0))
             [sample.expiredLeaf; sample.intermediate] (-10)
             [sample.expiredLeaf; sample.intermediate; sample.root]).
    + reflexivity.
    + intros c Hc. apply elem_of_cons in Hc as [->|Hc]; [simpl; lia|].
      apply elem_of_cons in Hc as [->|Hc]; [simpl; lia|].
      by apply elem_of_nil in Hc.
    + vm_compute. reflexivity.
Defined.

(** * Further properties of the dispatcher *)

(** ** The period chooser, continued *)

Lemma Choose_safe_iff pc :
  in_int64 (epsilon pc) -> Choose_safe pc <-> epsilon pc < 2 ^ 62.
Proof.
  unfold Choose_safe, in_int64. intros Hr. split.
  - intros [H|H]; [lia|].
    destruct (Z_lt_dec (epsilon pc) (2 ^ 62)) as [|Hge]; [done|].
    rewrite wrap64_high in H by lia. lia.
  - intros H. destruct (Z_le_dec (epsilon pc) 0) as [|Hpos]; [by left|].
    right. rewrite wrap64_id by (unfold in_int64; lia). lia.
Qed.

(** [Choose] returns a period exactly when epsilon is below 2^62: from
    there on the doubled epsilon no longer fits 64 bits, the bound handed to
    [rand.Int63n] is not positive and the call panics, whatever the draw.
    With an epsilon that is not positive there is no jitter at all. *)
Theorem Choose_returns_iff pc draw :
  in_int64 (epsilon pc) ->
  ((exists p, Choose pc draw = Returned p) <-> epsilon pc < 2 ^ 62)
  /\ (2 ^ 62 <= epsilon pc -> exists msg, Choose pc draw = Panicked msg)
  /\ (epsilon pc <= 0 -> Choose pc draw = Returned (wrap64 (period pc))).
Proof.
  intros Hr. pose proof (Choose_safe_iff pc Hr) as Hsafe.
  assert ((exists p, Choose pc draw = Returned p) <-> epsilon pc < 2 ^ 62) as Hiff.
  { rewrite <- Hsafe. split.
    - intros [p Hp]. eapply Choose_returns_safe, Hp.
    - apply Choose_safe_returns. }
  split; [exact Hiff|]. split.
  - intros Hbig. destruct (Choose pc draw) as [p|msg] eqn:E; [|eauto].
    assert (epsilon pc < 2 ^ 62) by (apply Hiff; eauto). lia.
  - intros Hle. unfold Choose.
    destruct (0 <? epsilon pc) eqn:E; [apply Z.ltb_lt in E; lia|].
    by rewrite Z.add_0_r.
Qed.

Lemma Choose_returns_iff_witness :
  (exists p, Choose (d_periodChooser sample.d1) 7 = Returned p)
  /\ exists msg,
       Choose {| period := 5000000000; epsilon := 2 ^ 62 |} 7 = Panicked msg.
Proof.
  split.
  - apply (proj1 (Choose_returns_iff (d_periodChooser sample.d1) 7
                    ltac:(vm_compute; split; [discriminate|reflexivity]))).
    reflexivity.
  - apply (proj1 (proj2 (Choose_returns_iff
                           {| period := 5000000000; epsilon := 2 ^ 62 |} 7
                           ltac:(vm_compute; split; [discriminate|reflexivity])))).
    simpl. lia.
Defined.

Lemma Choose_value pc draw :
  0 < epsilon pc -> epsilon pc < 2 ^ 62 ->
  in_int64 (period pc - epsilon pc) ->
  in_int64 (period pc + epsilon pc) ->
  Choose pc draw = Returned (period pc + draw mod (2 * epsilon pc) - epsilon pc).
Proof.
  unfold Choose, rand.Int63n, in_int64. intros Heps Hsmall Hlo Hhi.
  destruct (0 <? epsilon pc) eqn:E; [|apply Z.ltb_ge in E; lia].
  rewrite (wrap64_id (2 * epsilon pc)) by (unfold in_int64; lia).
  destruct (2 * epsilon pc <=? 0) eqn:En; [apply Z.leb_le in En; lia|].
  pose proof (Z.mod_pos_bound draw (2 * epsilon pc) ltac:(lia)) as Hr.
  rewrite (wrap64_id (draw `mod` (2 * epsilon pc) - epsilon pc))
    by (unfold in_int64; lia).
  rewrite wrap64_id by (unfold in_int64; lia).
  f_equal. lia.
Qed.

(** The jitter is uniform: without overflow, the draws of [[0, 2ε)] and
    the periods of [[base-ε, base+ε)] correspond one to one, so every period
    of that range is chosen by exactly one reduced draw and base+ε by
    none. *)
Theorem Choose_one_to_one pc :
  0 < epsilon pc -> epsilon pc < 2 ^ 62 ->
  in_int64 (period pc - epsilon pc) ->
  in_int64 (period pc + epsilon pc) ->
  (forall p, period pc - epsilon pc <= p < period pc + epsilon pc ->
     exists draw, 0 <= draw < 2 * epsilon pc /\ Choose pc draw = Returned p)
  /\ (forall draw1 draw2,
        0 <= draw1 < 2 * epsilon pc -> 0 <= draw2 < 2 * epsilon pc ->
        Choose pc draw1 = Choose pc draw2 -> draw1 = draw2)
  /\ (forall draw, Choose pc draw <> Returned (period pc + epsilon pc)).
Proof.
  intros Heps Hsmall Hlo Hhi. split; [|split].
  - intros p Hp. exists (p - (period pc - epsilon pc)). split; [lia|].
    rewrite Choose_value by done. rewrite Z.mod_small by lia. f_equal. lia.
  - intros draw1 draw2 H1 H2. rewrite !Choose_value by done.
    rewrite !Z.mod_small by lia. intros [= H]. lia.
  - intros draw. rewrite Choose_value by done.
    pose proof (Z.mod_pos_bound draw (2 * epsilon pc) ltac:(lia)).
    intros [= H']. lia.
Qed.

Lemma Choose_one_to_one_witness :
  (exists draw, 0 <= draw < 1000000000
                /\ Choose (d_periodChooser sample.d1) draw = Returned 5499999999)
  /\ (forall draw, Choose (d_periodChooser sample.d1) draw <> Returned 5500000000).
Proof.
  destruct (Choose_one_to_one (d_periodChooser sample.d1)
              ltac:(reflexivity) ltac:(reflexivity)
              ltac:(vm_compute; split; [discriminate|reflexivity])
              ltac:(vm_compute; split; [discriminate|reflexivity]))
    as (Hreach & _ & Hnever).
  split; [|exact Hnever].
  apply (Hreach 5499999999). vm_compute. split; [discriminate|reflexivity].
Defined.

(** ** Register, continued *)

(** The store after the transaction of [Register] for the node [n]. *)
Lemma Register_present_eq d r rn newID draw now :
  d_nodes d !! api.NodeSpec_ID (api.Register_Spec r) = Some rn ->
  Register d r newID draw now =
  (Returned (Ok {| api.Response_NodeID := api.NodeSpec_ID (api.Spec (rn_Node rn));
                   api.Response_SessionID := rn_SessionID rn |}),
   set_store
     (set_nodes d (<[api.NodeSpec_ID (api.Register_Spec r) := ready rn]> (d_nodes d)))
     {| state.nodes := <[api.NodeSpec_ID (api.Spec (rn_Node rn)) := rn_Node (ready rn)]>
                         (state.nodes (d_store d));
        state.tasks := state.tasks (d_store d) |}).
Proof.
  intros Hrn. unfold Register. rewrite Hrn.
  unfold state.Update. rewrite Register_tx_succeeds. reflexivity.
Qed.

Lemma Register_absent_eq d r newID draw now p :
  d_nodes d !! api.NodeSpec_ID (api.Register_Spec r) = None ->
  Choose (d_periodChooser d) draw = Returned p ->
  let rn := {| rn_SessionID := newID;
               rn_Heartbeat := heartbeat.New (wrap64 (p * d_gracePeriodMultiplier d)) now;
               rn_Tasks := [];
               rn_Node := {| api.Spec := api.Register_Spec r;
                             api.Status := {| api.State := api.NodeStatus_READY |} |} |} in
  Register d r newID draw now =
  (Returned (Ok {| api.Response_NodeID := api.NodeSpec_ID (api.Register_Spec r);
                   api.Response_SessionID := newID |}),
   set_store
     (set_nodes d (<[api.NodeSpec_ID (api.Register_Spec r) := rn]> (d_nodes d)))
     {| state.nodes := <[api.NodeSpec_ID (api.Register_Spec r) := rn_Node rn]>
                         (state.nodes (d_store d));
        state.tasks := state.tasks (d_store d) |}).
Proof.
  intros Hnone Hp rn. unfold Register, registerNode. rewrite Hnone, Hp.
  unfold state.Update. rewrite Register_tx_succeeds. simpl.
  by rewrite insert_insert_eq.
Qed.

Lemma Register_absent_panics d r newID draw now msg :
  d_nodes d !! api.NodeSpec_ID (api.Register_Spec r) = None ->
  Choose (d_periodChooser d) draw = Panicked msg ->
  Register d r newID draw now = (Panicked msg, d).
Proof.
  intros Hnone Hp. unfold Register, registerNode. by rewrite Hnone, Hp.
Qed.



(** ** Expiry and return *)

Lemma timer_fires_nodes d log nid rn now :
  d_nodes d !! nid = Some rn ->
  heartbeat.fires (rn_Heartbeat rn) now = true ->
  d_nodes (timer_fires now nid (d, log)).1 = delete nid (d_nodes d)
  /\ d_periodChooser (timer_fires now nid (d, log)).1 = d_periodChooser d
  /\ d_gracePeriodMultiplier (timer_fires now nid (d, log)).1 = d_gracePeriodMultiplier d.
Proof.
  intros Hrn Hf. unfold timer_fires. simpl. rewrite Hrn, Hf.
  unfold registerNode_callback. simpl.
  pose proof (nodeDown_nodes d nid) as Hn.
  pose proof (nodeDown_periodChooser d nid) as Hp.
  unfold nodeDown in *.
  destruct (state.Update _ _) as [[e|] s]; simpl in *; done.
Qed.

(** Once the timer of a node has fired, every handler turns the node away
    with NodeNotRegistered, whatever session identifier the request carries,
    and leaves the dispatcher as the expiry left it; the two streams emit
    nothing. *)
Theorem expired_node_is_turned_away d log nid rn tfire :
  d_nodes d !! nid = Some rn ->
  heartbeat.fires (rn_Heartbeat rn) tfire = true ->
  let d' := (timer_fires tfire nid (d, log)).1 in
  (forall sid draw now,
     Heartbeat d' {| api.HeartbeatRequest_NodeID := nid;
                     api.HeartbeatRequest_SessionID := sid |} draw now
     = (Returned (Err NodeNotRegistered), d'))
  /\ (forall sid ts,
        UpdateTaskStatus d' {| api.UTS_NodeID := nid; api.UTS_SessionID := sid;
                               api.UTS_Tasks := ts |}
        = (Err NodeNotRegistered, d'))
  /\ (forall sid env queue ctxDone,
        Tasks d' {| api.TasksRequest_NodeID := nid; api.TasksRequest_SessionID := sid |}
          env queue ctxDone
        = ([], Closed (Some NodeNotRegistered)))
  /\ (forall sid env n,
        Session d' {| api.SessionRequest_NodeID := nid;
                      api.SessionRequest_SessionID := sid |} env n
        = ([], Closed (Some NodeNotRegistered))).
Proof.
  intros Hrn Hf d'.
  assert (d_nodes d' !! nid = None) as Hgone.
  { subst d'. rewrite (proj1 (timer_fires_nodes d log nid rn tfire Hrn Hf)).
    apply lookup_delete_eq. }
  repeat split; intros; unfold Heartbeat, UpdateTaskStatus, Tasks, Session; simpl;
    by rewrite Hgone.
Qed.

Lemma expired_node_is_turned_away_witness :
  let d' := (timer_fires 13500000000 "node-1" (sample.d1, [])).1 in
  Heartbeat d' sample.beat1 7 13500000001 = (Returned (Err NodeNotRegistered), d')
  /\ Session d' sample.session1 sample.env_quiet 3 = ([], Closed (Some NodeNotRegistered)).
Proof.
  intros d'.
  destruct (expired_node_is_turned_away sample.d1 [] "node-1" sample.rn1 13500000000
              sample_d1_node ltac:(vm_compute; reflexivity))
    as (Hbeat & _ & _ & Hsession).
  split; [apply Hbeat|apply Hsession].
Defined.



(** ** What the handlers keep *)

Lemma Register_keeps_session d r newID draw now id rn rn' :
  d_nodes d !! id = Some rn ->
  d_nodes (Register d r newID draw now).2 !! id = Some rn' ->
  rn_SessionID rn' = rn_SessionID rn.
Proof.
  intros Hrn.
  destruct (d_nodes d !! api.NodeSpec_ID (api.Register_Spec r)) as [rn0|] eqn:E.
  - rewrite (Register_present_eq _ _ _ _ _ _ E). simpl.
    destruct (decide (api.NodeSpec_ID (api.Register_Spec r) = id)) as [Heq|Hne].
    + rewrite Heq in *. rewrite lookup_insert_eq. intros [= <-]. simpl. congruence.
    + rewrite lookup_insert_ne by done. congruence.
  - assert (api.NodeSpec_ID (api.Register_Spec r) <> id) as Hne by congruence.
    destruct (Choose (d_periodChooser d) draw) as [p|msg] eqn:Hp.
    + rewrite (Register_absent_eq _ _ _ _ _ _ E Hp). simpl.
      rewrite lookup_insert_ne by done. congruence.
    + rewrite (Register_absent_panics _ _ _ _ _ _ E Hp). simpl. congruence.
Qed.

Lemma Heartbeat_keeps_session d r draw now id rn rn' :
  d_nodes d !! id = Some rn ->
  d_nodes (Heartbeat d r draw now).2 !! id = Some rn' ->
  rn_SessionID rn' = rn_SessionID rn /\ rn_Node rn' = rn_Node rn.
Proof.
  intros Hrn. unfold Heartbeat.
  destruct (d_nodes d !! api.HeartbeatRequest_NodeID r) as [node|] eqn:E;
    [|simpl; intros; split; congruence].
  destruct (Choose (d_periodChooser d) draw); [|simpl; intros; split; congruence].
  destruct (decide _); [simpl; intros; split; congruence|]. simpl.
  destruct (decide (api.HeartbeatRequest_NodeID r = id)) as [Heq|Hne].
  - rewrite Heq in *. rewrite lookup_insert_eq. intros [= <-]. simpl.
    split; congruence.
  - rewrite lookup_insert_ne by done. intros; split; congruence.
Qed.

(** No handler ever changes the session of a registered node: across a
    Register, an UpdateTaskStatus, a Heartbeat or an expiry of any node, a
    node that is registered before and after holds the same session
    identifier.  A session only ends with the node's removal. *)
Theorem session_is_stable d id rn rn' :
  d_nodes d !! id = Some rn ->
  (forall r newID draw now,
     d_nodes (Register d r newID draw now).2 !! id = Some rn' ->
     rn_SessionID rn' = rn_SessionID rn)
  /\ (forall r,
        d_nodes (UpdateTaskStatus d r).2 !! id = Some rn' ->
        rn_SessionID rn' = rn_SessionID rn)
  /\ (forall r draw now,
        d_nodes (Heartbeat d r draw now).2 !! id = Some rn' ->
        rn_SessionID rn' = rn_SessionID rn)
  /\ (forall other,
        d_nodes (nodeDown d other).2 !! id = Some rn' ->
        rn_SessionID rn' = rn_SessionID rn).
Proof.
  intros Hrn. split; [|split; [|split]].
  - intros r newID draw now. by apply Register_keeps_session.
  - intros r. rewrite UpdateTaskStatus_nodes. congruence.
  - intros r draw now H. by apply (Heartbeat_keeps_session d r draw now id rn rn').
  - intros other. rewrite nodeDown_nodes.
    intros H. apply lookup_delete_Some in H as [_ H]. congruence.
Qed.

Lemma session_is_stable_witness :
  exists rn',
    d_nodes (Heartbeat sample.d1 sample.beat1 7 1000).2 !! "node-1" = Some rn'
    /\ rn_SessionID rn' = "session-1".
Proof.
  destruct (d_nodes (Heartbeat sample.d1 sample.beat1 7 1000).2 !! "node-1")
    as [rn'|] eqn:E; [|vm_compute in E; discriminate].
  exists rn'. split; [reflexivity|].
  apply (proj1 (proj2 (proj2 (session_is_stable sample.d1 "node-1" sample.rn1 rn'
                                sample_d1_node)))
           sample.beat1 7 1000 E).
Defined.

(** *** The registered-node map is keyed by the node's own identifier *)

Lemma reachable_own_ID d :
  reachable d ->
  forall id rn, d_nodes d !! id = Some rn ->
                api.NodeSpec_ID (api.Spec (rn_Node rn)) = id.
Proof.
  intros Hreach.
  induction Hreach as [store c|d r newID draw now _ IH|d r _ IH|d r draw now _ IH
                      |d id' _ IH|d s _ IH]; intros id rn Hrn.
  - simpl in Hrn. by rewrite lookup_empty in Hrn.
  - destruct (d_nodes d !! api.NodeSpec_ID (api.Register_Spec r)) as [rn0|] eqn:E.
    + rewrite (Register_present_eq _ _ _ _ _ _ E) in Hrn. simpl in Hrn.
      apply lookup_insert_Some in Hrn as [[<- <-]|[_ Hrn]]; [|eauto].
      simpl. eauto.
    + destruct (Choose (d_periodChooser d) draw) as [p|msg] eqn:Hp.
      * rewrite (Register_absent_eq _ _ _ _ _ _ E Hp) in Hrn. simpl in Hrn.
        apply lookup_insert_Some in Hrn as [[<- <-]|[_ Hrn]]; [done|eauto].
      * rewrite (Register_absent_panics _ _ _ _ _ _ E Hp) in Hrn. eauto.
  - rewrite UpdateTaskStatus_nodes in Hrn. eauto.
  - destruct (Heartbeat_nodes_present _ _ _ _ _ _ Hrn) as [rn0 H0].
    destruct (Heartbeat_keeps_session _ _ _ _ _ _ _ H0 Hrn) as [_ ->]. eauto.
  - rewrite nodeDown_nodes in Hrn. apply lookup_delete_Some in Hrn as [_ Hrn]. eauto.
  - simpl in Hrn. eauto.
Qed.

(** In every state the dispatcher reaches, a node sits in the map under the
    identifier of its own specification; so the NodeID of a Register response
    is the identifier the request asked for. *)
Theorem registered_under_own_ID d :
  reachable d ->
  (forall id rn, d_nodes d !! id = Some rn ->
     api.NodeSpec_ID (api.Spec (rn_Node rn)) = id)
  /\ (forall r newID draw now resp d',
        Register d r newID draw now = (Returned (Ok resp), d') ->
        api.Response_NodeID resp = api.NodeSpec_ID (api.Register_Spec r)).
Proof.
  intros Hreach. pose proof (reachable_own_ID d Hreach) as Hkey.
  split; [exact Hkey|].
  intros r newID draw now resp d' H.
  destruct (d_nodes d !! api.NodeSpec_ID (api.Register_Spec r)) as [rn0|] eqn:E.
  - rewrite (Register_present_eq _ _ _ _ _ _ E) in H. injection H as <- _.
    simpl. eauto.
  - destruct (Choose (d_periodChooser d) draw) as [p|msg] eqn:Hp.
    + rewrite (Register_absent_eq _ _ _ _ _ _ E Hp) in H. by injection H as <- _.
    + by rewrite (Register_absent_panics _ _ _ _ _ _ E Hp) in H.
Qed.

Lemma registered_under_own_ID_witness :
  api.NodeSpec_ID (api.Spec (rn_Node sample.rn1)) = "node-1".
Proof.
  apply (proj1 (registered_under_own_ID sample.d1
                  (reach_Register _ _ _ _ _ (reach_New _ _)))
           "node-1" sample.rn1 sample_d1_node).
Defined.

(** *** A dispatcher that cannot register *)

(** With an epsilon of 2^62 or more every Register of a new node panics
    before the map is written, so such a dispatcher never has a registered
    node: in each state it reaches the map is empty, and every Heartbeat,
    UpdateTaskStatus, Tasks and Session is turned away. *)
Theorem no_registration_with_large_epsilon d :
  reachable d ->
  ~ Choose_safe (d_periodChooser d) ->
  d_nodes d = ∅
  /\ (forall r newID draw now,
        exists msg, Register d r newID draw now = (Panicked msg, d))
  /\ (forall r draw now, Heartbeat d r draw now = (Returned (Err NodeNotRegistered), d)).
Proof.
  intros Hreach Hbad.
  assert (d_nodes d = ∅) as Hempty.
  { apply map_empty. intros id.
    destruct (d_nodes d !! id) as [rn|] eqn:E; [|done].
    destruct Hbad. eapply reachable_Choose_safe; eauto. }
  split; [exact Hempty|]. split.
  - intros r newID draw now.
    destruct (Choose (d_periodChooser d) draw) as [p|msg] eqn:Hp.
    + destruct Hbad. eapply Choose_returns_safe, Hp.
    + exists msg. apply Register_absent_panics; [|done].
      by rewrite Hempty, lookup_empty.
  - intros r draw now. unfold Heartbeat. by rewrite Hempty, lookup_empty.
Qed.

Lemma no_registration_with_large_epsilon_witness :
  let d := New sample.store0
             {| Addr := ""; HeartbeatPeriod := 5000000000;
                HeartbeatEpsilon := 2 ^ 62; GracePeriodMultiplier := 3 |} in
  d_nodes (Register d sample.register1 "session-1" 7 0).2 = ∅
  /\ exists msg, Register d sample.register1 "session-1" 7 0 = (Panicked msg, d).
Proof.
  intros d.
  assert (~ Choose_safe (d_periodChooser d)) as Hbad.
  { intros [H|H]; vm_compute in H; [by apply H|discriminate]. }
  split.
  - apply (no_registration_with_large_epsilon _ (reach_Register _ _ _ _ _ (reach_New _ _))).
    by rewrite Register_periodChooser.
  - apply (proj1 (proj2 (no_registration_with_large_epsilon d (reach_New _ _) Hbad))).
Defined.

(** ** Heartbeat, continued *)

Lemma Heartbeat_ok_eq d r draw now resp d' :
  Heartbeat d r draw now = (Returned (Ok resp), d') ->
  exists node,
    d_nodes d !! api.HeartbeatRequest_NodeID r = Some node
    /\ rn_SessionID node = api.HeartbeatRequest_SessionID r
    /\ Choose (d_periodChooser d) draw = Returned (api.Period resp)
    /\ d' = set_nodes d
              (<[api.HeartbeatRequest_NodeID r :=
                   {| rn_SessionID := rn_SessionID node;
                      rn_Heartbeat :=
                        {| heartbeat.timeout :=
                             wrap64 (api.Period resp * d_gracePeriodMultiplier d);
                           heartbeat.deadline :=
                             now + wrap64 (api.Period resp * d_gracePeriodMultiplier d) |};
                      rn_Tasks := rn_Tasks node;
                      rn_Node := rn_Node node |}]> (d_nodes d)).
Proof.
  unfold Heartbeat.
  destruct (d_nodes d !! api.HeartbeatRequest_NodeID r) as [node|]; [|discriminate].
  destruct (Choose (d_periodChooser d) draw) as [p|]; [|discriminate].
  destruct (decide (rn_SessionID node ≠ api.HeartbeatRequest_SessionID r)) as [|Heq];
    [discriminate|].
  intros [= <- <-]. exists node. repeat split; try done.
  by destruct (decide (rn_SessionID node = api.HeartbeatRequest_SessionID r)).
Qed.

(** A Heartbeat changes the timer of its node and nothing else: the store,
    the configuration and every other node are as before, the node keeps its
    session, its tasks and its description; and a Heartbeat that does not
    answer with a period changes nothing at all. *)
Theorem Heartbeat_changes_only_the_timer d r draw now :
  let out := Heartbeat d r draw now in
  d_store out.2 = d_store d
  /\ d_addr out.2 = d_addr d
  /\ dom (d_nodes out.2) = dom (d_nodes d)
  /\ (forall id, id <> api.HeartbeatRequest_NodeID r ->
        d_nodes out.2 !! id = d_nodes d !! id)
  /\ (forall node node',
        d_nodes d !! api.HeartbeatRequest_NodeID r = Some node ->
        d_nodes out.2 !! api.HeartbeatRequest_NodeID r = Some node' ->
        rn_SessionID node' = rn_SessionID node
        /\ rn_Tasks node' = rn_Tasks node
        /\ rn_Node node' = rn_Node node)
  /\ ((forall resp, out.1 <> Returned (Ok resp)) -> out.2 = d).
Proof.
  intros out. subst out. unfold Heartbeat.
  destruct (d_nodes d !! api.HeartbeatRequest_NodeID r) as [node|] eqn:E;
    [|simpl; repeat split; try done; intros; congruence].
  destruct (Choose (d_periodChooser d) draw) as [p|];
    [|simpl; repeat split; try done; intros; congruence].
  destruct (decide _); [simpl; repeat split; try done; intros; congruence|].
  simpl. split; [done|]. split; [done|]. split.
  { apply dom_insert_lookup_L. by exists node. }
  split; [intros id Hne; by rewrite lookup_insert_ne|]. split.
  - intros node0 node'. rewrite lookup_insert_eq. by intros [= <-] [= <-].
  - intros H. by destruct (H {| api.Period := p |}).
Qed.

(** A Heartbeat keeps its node alive for the grace period and no longer:
    after a Heartbeat answered at time [now] with period [p], the timer of
    the node does nothing before [now] plus [p] times the multiplier (in
    64-bit arithmetic), and from that instant on it removes the node. *)
Theorem Heartbeat_postpones_expiry d r draw now resp d' :
  Heartbeat d r draw now = (Returned (Ok resp), d') ->
  let nid := api.HeartbeatRequest_NodeID r in
  let grace := wrap64 (api.Period resp * d_gracePeriodMultiplier d) in
  (forall t log, t < now + grace -> timer_fires t nid (d', log) = (d', log))
  /\ (forall t log, now + grace <= t ->
        d_nodes (timer_fires t nid (d', log)).1 !! nid = None).
Proof.
  intros H nid grace.
  destruct (Heartbeat_ok_eq _ _ _ _ _ _ H) as (node & Hnode & _ & _ & ->).
  fold nid grace. split.
  - intros t log Ht. unfold timer_fires. simpl. rewrite lookup_insert_eq.
    unfold heartbeat.fires. simpl.
    by destruct (now + grace <=? t) eqn:E; [apply Z.leb_le in E; lia|].
  - intros t log Ht.
    match goal with |- d_nodes (timer_fires t nid (?d0, log)).1 !! nid = None =>
      destruct (timer_fires_nodes d0 log nid
                  {| rn_SessionID := rn_SessionID node;
                     rn_Heartbeat := {| heartbeat.timeout := grace;
                                        heartbeat.deadline := now + grace |};
                     rn_Tasks := rn_Tasks node;
                     rn_Node := rn_Node node |} t) as (Hn & _ & _)
    end.
    + simpl. apply lookup_insert_eq.
    + unfold heartbeat.fires. simpl. apply Z.leb_le. lia.
    + rewrite Hn. apply lookup_delete_eq.
Qed.

Lemma Heartbeat_postpones_expiry_witness :
  exists d',
    Heartbeat sample.d1 sample.beat1 7 1000 = (Returned (Ok {| api.Period := 4500000007 |}), d')
    /\ timer_fires 13500000000 "node-1" (d', []) = (d', [])
    /\ d_nodes (timer_fires 13500001021 "node-1" (d', [])).1 !! "node-1" = None.
Proof.
  destruct (Heartbeat sample.d1 sample.beat1 7 1000) as [o d'] eqn:E.
  assert (o = Returned (Ok {| api.Period := 4500000007 |})) as ->.
  { change o with (o, d').1. rewrite <- E. vm_compute. reflexivity. }
  exists d'. split; [reflexivity|].
  destruct (Heartbeat_postpones_expiry _ _ _ _ _ _ E) as [Hquiet Hfire].
  split; [apply Hquiet|apply Hfire]; vm_compute; [reflexivity|discriminate].
Defined.

Lemma Heartbeat_changes_only_the_timer_witness :
  let out := Heartbeat sample.d2 sample.beat1 7 1000 in
  d_store out.2 = d_store sample.d2
  /\ (forall id, id <> "node-1" -> d_nodes out.2 !! id = d_nodes sample.d2 !! id)
  /\ (forall node', d_nodes out.2 !! "node-1" = Some node' ->
        rn_SessionID node' = "session-1").
Proof.
  intros out.
  destruct (Heartbeat_changes_only_the_timer sample.d2 sample.beat1 7 1000)
    as (Hstore & _ & _ & Hothers & Hnode & _).
  split; [exact Hstore|]. split; [exact Hothers|].
  intros node' Hn. by destruct (Hnode sample.rn1 node' sample_d2_node Hn) as [-> _].
Defined.

(** ** UpdateTaskStatus, continued *)

Lemma UpdateTaskStatus_ok_eq d r d' :
  UpdateTaskStatus d r = (Ok tt, d') ->
  Forall (known (state.tasks (d_store d))) (api.UTS_Tasks r)
  /\ d' = set_store d
            {| state.nodes := state.nodes (d_store d);
               state.tasks := apply_updates (api.UTS_Tasks r) (state.tasks (d_store d)) |}.
Proof.
  unfold UpdateTaskStatus.
  destruct (d_nodes d !! api.UTS_NodeID r) as [rn|]; [|discriminate].
  destruct (checkSessionID rn (api.UTS_SessionID r)); [discriminate|].
  unfold state.Update.
  destruct (Forall_dec (known (state.tasks (d_store d))) (api.UTS_Tasks r)) as [Hall|Hnot].
  - rewrite UpdateTaskStatus_tx_all by done. intros [= <-]. done.
  - destruct (UpdateTaskStatus_tx_some _ _ Hnot) as [tx' ->]. discriminate.
Qed.

(** A successful UpdateTaskStatus writes the task rows it names and nothing
    else: the registered nodes and the node rows are untouched, no task row
    appears or disappears, a task that the request does not name keeps its
    row, and a task that it names, once or several times, ends with the
    status of the last update that names it. *)
Theorem UpdateTaskStatus_writes_named_rows d r d' :
  UpdateTaskStatus d r = (Ok tt, d') ->
  d_nodes d' = d_nodes d
  /\ state.nodes (d_store d') = state.nodes (d_store d)
  /\ dom (state.tasks (d_store d')) = dom (state.tasks (d_store d))
  /\ (forall id, (forall t, t ∈ api.UTS_Tasks r -> api.Update_ID t <> id) ->
        state.tasks (d_store d') !! id = state.tasks (d_store d) !! id)
  /\ (forall before t after,
        api.UTS_Tasks r = (before ++ t :: after)%list ->
        (forall t', t' ∈ after -> api.Update_ID t' <> api.Update_ID t) ->
        exists row,
          state.tasks (d_store d') !! api.Update_ID t = Some row
          /\ api.Task_ID row = api.Update_ID t
          /\ api.Task_Status row = api.Update_Status t).
Proof.
  intros H. apply UpdateTaskStatus_ok_eq in H as [Hall ->]. simpl.
  split; [done|]. split; [done|]. split; [by apply apply_updates_dom|].
  split; [intros id Hno; by apply apply_updates_other|].
  intros before t after Hsplit Hlast. exists (status_row t).
  split; [|done]. rewrite Hsplit.
  replace (before ++ t :: after)%list with ((before ++ [t]) ++ after)%list
    by (by rewrite <- app_assoc).
  unfold apply_updates. rewrite foldl_app.
  fold (apply_updates (before ++ [t]) (state.tasks (d_store d))).
  fold (apply_updates after (apply_updates (before ++ [t]) (state.tasks (d_store d)))).
  rewrite apply_updates_other by done.
  rewrite apply_updates_snoc. apply lookup_insert_eq.
Qed.

Lemma UpdateTaskStatus_writes_named_rows_witness :
  exists d',
    UpdateTaskStatus sample.d2 sample.update_ok = (Ok tt, d')
    /\ d_nodes d' = d_nodes sample.d2
    /\ state.tasks (d_store d') !! "T9" = Some sample.T9
    /\ exists row, state.tasks (d_store d') !! "T2" = Some row
                   /\ api.Task_Status row = 7.
Proof.
  destruct (UpdateTaskStatus sample.d2 sample.update_ok) as [o d'] eqn:E.
  assert (o = Ok tt) as ->.
  { change o with (o, d').1. rewrite <- E. vm_compute. reflexivity. }
  exists d'. split; [reflexivity|].
  destruct (UpdateTaskStatus_writes_named_rows _ _ _ E) as (Hn & _ & _ & Hother & Hnamed).
  split; [exact Hn|]. split.
  - rewrite (Hother "T9"); [vm_compute; reflexivity|].
    intros t Ht. apply elem_of_cons in Ht as [->|Ht]; [discriminate|].
    apply elem_of_cons in Ht as [->|Ht]; [discriminate|]. by apply elem_of_nil in Ht.
  - destruct (Hnamed [ {| api.Update_ID := "T1"; api.Update_Status := 5 |} ]
                {| api.Update_ID := "T2"; api.Update_Status := 7 |} []
                eq_refl) as (row & Hrow & _ & Hst).
    + intros t' Ht'. by apply elem_of_nil in Ht'.
    + exists row. split; [exact Hrow|exact Hst].
Defined.

(** ** Tasks, continued *)

Lemma Tasks_started d r env queue ctxDone rn :
  d_nodes d !! api.TasksRequest_NodeID r = Some rn ->
  rn_SessionID rn = api.TasksRequest_SessionID r ->
  Tasks d r env queue ctxDone
  = Tasks_loop (api.TasksRequest_SessionID r) env 0
      (Tasks_snapshot (api.TasksRequest_NodeID r) (d_store d))
      (channel (state.Watch queue (Tasks_specifiers (api.TasksRequest_NodeID r))) ctxDone).
Proof.
  intros Hrn Hsid. unfold Tasks, checkSessionID. rewrite Hrn.
  by destruct (decide (rn_SessionID rn ≠ api.TasksRequest_SessionID r)).
Qed.

Lemma view_app m evs1 evs2 : view m (evs1 ++ evs2) = view (view m evs1) evs2.
Proof. unfold view. apply foldl_app. Qed.

Lemma Tasks_apply_other ev m id :
  (forall t, Event_Task ev = Some t -> api.Task_ID t <> id) ->
  Tasks_apply ev m !! id = m !! id.
Proof.
  intros Hno. destruct ev as [t|t|t|n|n|n]; simpl; try done.
  - rewrite lookup_insert_ne; [done|]. by apply Hno.
  - rewrite lookup_insert_ne; [done|]. by apply Hno.
  - rewrite lookup_delete_ne; [done|]. by apply Hno.
Qed.

Lemma view_other evs m id :
  (forall ev t, ev ∈ evs -> Event_Task ev = Some t -> api.Task_ID t <> id) ->
  view m evs !! id = m !! id.
Proof.
  revert m. induction evs as [|ev evs IH]; intros m Hno; [done|].
  simpl. rewrite IH.
  - apply Tasks_apply_other. intros t. apply Hno. by left.
  - intros ev' t Hev'. apply Hno. by right.
Qed.

(** A task stays in the messages of a stream until an event about it is
    delivered: when a task is listed in one message and no event delivered
    between that message and a later one bears the task's identifier, the
    later message lists the very same task. *)
Theorem Tasks_keeps_untouched_tasks d r env queue ctxDone rn :
  let nid := api.TasksRequest_NodeID r in
  d_nodes d !! nid = Some rn ->
  rn_SessionID rn = api.TasksRequest_SessionID r ->
  let delivered := state.Watch queue (Tasks_specifiers nid) in
  forall j j' msg msg' t,
    (j <= j')%nat ->
    (Tasks d r env queue ctxDone).1 !! j = Some msg ->
    (Tasks d r env queue ctxDone).1 !! j' = Some msg' ->
    t ∈ api.Tasks msg ->
    (forall i ev t', (j <= i < j')%nat -> delivered !! i = Some ev ->
                     Event_Task ev = Some t' -> api.Task_ID t' <> api.Task_ID t) ->
    t ∈ api.Tasks msg'.
Proof.
  intros nid Hrn Hsid delivered j j' msg msg' t Hle Hmsg Hmsg' Ht Hquiet.
  rewrite (Tasks_started _ _ _ _ _ _ Hrn Hsid) in Hmsg, Hmsg'.
  apply Tasks_loop_messages in Hmsg, Hmsg'. fold nid delivered in Hmsg, Hmsg'.
  subst msg msg'.
  assert (forall k, keyed (view (Tasks_snapshot nid (d_store d)) (take k delivered)))
    as Hkeyed by (intros k; apply view_keyed, Tasks_snapshot_keyed).
  apply Tasks_message_keyed in Ht; [|done]. apply Tasks_message_keyed; [done|].
  rewrite <- Ht.
  replace (take j' delivered)
    with (take j delivered ++ take (j' - j) (drop j delivered))%list.
  - rewrite view_app. apply view_other.
    intros ev t' Hev Ht'. apply list_elem_of_lookup in Hev as [i Hi].
    apply lookup_take_Some in Hi as [Hi Hlt]. rewrite lookup_drop in Hi.
    apply (Hquiet (j + i)%nat ev t'); [lia|done|done].
  - rewrite take_take_drop. f_equal. lia.
Qed.

Lemma Tasks_keeps_untouched_tasks_witness :
  exists msg',
    (Tasks sample.d2 sample.tasks1 sample.env_quiet sample.queue1 false).1 !! 2%nat
    = Some msg'
    /\ sample.T2 ∈ api.Tasks msg'.
Proof.
  destruct ((Tasks sample.d2 sample.tasks1 sample.env_quiet sample.queue1 false).1
              !! 2%nat) as [msg'|] eqn:Hmsg'; [|vm_compute in Hmsg'; discriminate].
  exists msg'. split; [reflexivity|].
  assert ((Tasks sample.d2 sample.tasks1 sample.env_quiet sample.queue1 false).1 !! 0%nat
          = Some {| api.Tasks := [sample.T1; sample.T2] |}) as Hmsg
    by (vm_compute; reflexivity).
  apply (Tasks_keeps_untouched_tasks sample.d2 sample.tasks1 sample.env_quiet
           sample.queue1 false sample.rn1 sample_d2_node eq_refl
           0%nat 2%nat _ msg' sample.T2 ltac:(lia) Hmsg Hmsg').
  - right. left.
  - intros i ev t' Hi Hev Ht'.
    destruct i as [|[|i]]; [| |lia]; vm_compute in Hev; injection Hev as <-;
      injection Ht' as <-; discriminate.
Defined.

Lemma Watch_app queue1 queue2 specs :
  state.Watch (queue1 ++ queue2) specs
  = (state.Watch queue1 specs ++ state.Watch queue2 specs)%list.
Proof. unfold state.Watch. apply filter_app. Qed.

Lemma Tasks_watch_foreign nid ev :
  (forall t, Event_Task ev = Some t -> api.Task_NodeID t <> nid) ->
  state.Watch [ev] (Tasks_specifiers nid) = [].
Proof.
  intros Hforeign.
  destruct (state.Watch [ev] (Tasks_specifiers nid)) as [|ev' rest] eqn:E; [done|].
  assert (ev' ∈ state.Watch [ev] (Tasks_specifiers nid)) as Hin by (rewrite E; left).
  apply Tasks_watch_delivers in Hin as [Hev (t & Hn & Ht)].
  apply elem_of_cons in Hev as [->|Hev]; [|by apply elem_of_nil in Hev].
  destruct (Hforeign t); [|done].
  by destruct Ht as [-> | [-> | ->]].
Qed.

(** A stream only hears of its own node: an event about a task of another
    node, or an event that is not about a task, may be published anywhere in
    the queue without changing a single message of the stream or the way it
    ends. *)
Theorem Tasks_ignores_foreign_events d r env queue1 ev queue2 ctxDone :
  (forall t, Event_Task ev = Some t ->
             api.Task_NodeID t <> api.TasksRequest_NodeID r) ->
  Tasks d r env (queue1 ++ ev :: queue2) ctxDone
  = Tasks d r env (queue1 ++ queue2) ctxDone.
Proof.
  intros Hforeign. unfold Tasks.
  replace (queue1 ++ ev :: queue2)%list with (queue1 ++ [ev] ++ queue2)%list by done.
  by rewrite !Watch_app, (Tasks_watch_foreign _ _ Hforeign).
Qed.

Lemma Tasks_ignores_foreign_events_witness :
  Tasks sample.d2 sample.tasks1 sample.env_quiet
    ([] ++ state.EventCreateTask sample.T9
        :: [state.EventCreateTask sample.T3; state.EventDeleteTask sample.T1]) false
  = Tasks sample.d2 sample.tasks1 sample.env_quiet
      ([] ++ [state.EventCreateTask sample.T3; state.EventDeleteTask sample.T1]) false.
Proof.
  apply (Tasks_ignores_foreign_events sample.d2 sample.tasks1 sample.env_quiet []
           (state.EventCreateTask sample.T9)).
  intros t [= <-]. discriminate.
Defined.

Lemma Tasks_loop_ends sid env ctxDone :
  forall evs k m,
    let out := Tasks_loop sid env k m (channel evs ctxDone) in
    (length out.1 <= S (length evs))%nat
    /\ (forall e, out.2 = Closed (Some e) ->
          (e = InvalidSession /\ seen env (k + length out.1) <> sid)
          \/ sent env (k + length out.1) = Some e)
    /\ (out.2 = Closed None -> ctxDone = true /\ length out.1 = S (length evs))
    /\ (out.2 = Open -> ctxDone = false /\ length out.1 = S (length evs)).
Proof.
  induction evs as [|ev evs IH]; intros k m; unfold channel.
  - destruct ctxDone; simpl;
      (destruct (decide (seen env k ≠ sid)) as [Hbad|];
       [simpl; rewrite Nat.add_0_r; split; [lia|];
        split; [intros e [= <-]; by left|done]|]);
      (destruct (sent env k) as [e0|] eqn:Hs;
       [simpl; rewrite Nat.add_0_r; split; [lia|];
        split; [intros e [= <-]; by right|done]|]);
      simpl; (split; [lia|]); done.
  - simpl.
    destruct (decide (seen env k ≠ sid)) as [Hbad|];
      [simpl; rewrite Nat.add_0_r; split; [lia|];
       split; [intros e [= <-]; by left|done]|].
    destruct (sent env k) as [e0|] eqn:Hs;
      [simpl; rewrite Nat.add_0_r; split; [lia|];
       split; [intros e [= <-]; by right|done]|].
    specialize (IH (S k) (Tasks_apply ev m)). unfold channel in IH.
    destruct (Tasks_loop sid env (S k) (Tasks_apply ev m) _) as [msgs e1].
    simpl in *. destruct IH as (Hlen & Herr & Hnil & Hopen).
    replace (k + S (length msgs))%nat with (S (k + length msgs)) by lia.
    split; [lia|]. split; [exact Herr|].
    split; intros H; [destruct (Hnil H)|destruct (Hopen H)]; split; (done || lia).
Qed.

(** How a task stream can end.  It never emits more than the initial
    message and one message per delivered event.  When it ends with an error,
    the error is NodeNotRegistered or InvalidSession, or it is the very error
    that the next send reported; it ends without error only on cancellation,
    and then, as when it is still waiting, every delivered event has been
    followed by its message. *)
Theorem Tasks_ends d r env queue ctxDone :
  let delivered := state.Watch queue (Tasks_specifiers (api.TasksRequest_NodeID r)) in
  let out := Tasks d r env queue ctxDone in
  (length out.1 <= S (length delivered))%nat
  /\ (forall e, out.2 = Closed (Some e) ->
        e = NodeNotRegistered \/ e = InvalidSession
        \/ sent env (length out.1) = Some e)
  /\ (out.2 = Closed None -> ctxDone = true /\ length out.1 = S (length delivered))
  /\ (out.2 = Open -> ctxDone = false /\ length out.1 = S (length delivered)).
Proof.
  intros delivered out. subst out. unfold Tasks.
  destruct (d_nodes d !! api.TasksRequest_NodeID r) as [rn|];
    [|simpl; split; [lia|]; split; [intros e [= <-]; by left|done]].
  unfold checkSessionID. destruct (decide _);
    [simpl; split; [lia|]; split; [intros e [= <-]; right; by left|done]|].
  fold delivered.
  destruct (Tasks_loop_ends (api.TasksRequest_SessionID r) env ctxDone delivered 0
              (Tasks_snapshot (api.TasksRequest_NodeID r) (d_store d)))
    as (Hlen & Herr & Hnil & Hopen).
  split; [exact Hlen|]. split; [|split; [exact Hnil|exact Hopen]].
  intros e He. destruct (Herr e He) as [[-> _]|Hs]; [right; by left|].
  right. right. exact Hs.
Qed.

Lemma Tasks_ends_witness :
  let out := Tasks sample.d2 sample.tasks1 sample.env_quiet sample.queue1 true in
  out.2 = Closed None /\ length out.1 = 3%nat.
Proof.
  intros out.
  destruct (Tasks_ends sample.d2 sample.tasks1 sample.env_quiet sample.queue1 true)
    as (_ & _ & Hnil & _).
  assert (out.2 = Closed None) as H by (vm_compute; reflexivity).
  split; [exact H|]. destruct (Hnil H) as [_ Hl].
  subst out. rewrite Hl. vm_compute. reflexivity.
Defined.

(** ** Session, continued *)

Lemma Session_loop_stops d sid env :
  forall j n k,
    (j < n)%nat ->
    (forall i, (i < j)%nat -> seen env (k + i) = sid /\ sent env (k + i) = None) ->
    (seen env (k + j) <> sid ->
     length (Session_loop d sid env k n).1 = j
     /\ (Session_loop d sid env k n).2 = Closed (Some InvalidSession))
    /\ (forall e, seen env (k + j) = sid -> sent env (k + j) = Some e ->
          length (Session_loop d sid env k n).1 = j
          /\ (Session_loop d sid env k n).2 = Closed (Some e)).
Proof.
  induction j as [|j IH]; intros n k Hlt Hgood; (destruct n as [|n]; [lia|]); simpl.
  - rewrite Nat.add_0_r. split.
    + intros Hbad. by destruct (decide (seen env k ≠ sid)).
    + intros e Hs He. destruct (decide (seen env k ≠ sid)); [done|]. by rewrite He.
  - destruct (Hgood O ltac:(lia)) as [Hs Hn]. rewrite Nat.add_0_r in Hs, Hn.
    destruct (decide (seen env k ≠ sid)); [done|]. rewrite Hn.
    destruct (IH n (S k) ltac:(lia)) as [Hstale Hsend].
    { intros i Hi. replace (S k + i)%nat with (k + S i)%nat by lia. apply Hgood. lia. }
    replace (S k + j)%nat with (k + S j)%nat in Hstale, Hsend by lia.
    destruct (Session_loop d sid env (S k) n) as [msgs e1]. simpl in *.
    split.
    + intros Hbad. destruct (Hstale Hbad) as [-> ->]. done.
    + intros e Hs' He. destruct (Hsend e Hs' He) as [-> ->]. done.
Qed.

Lemma Session_loop_no_clean_end d sid env :
  forall n k,
    (Session_loop d sid env k n).2 <> Closed None
    /\ ((Session_loop d sid env k n).2 = Open ->
        length (Session_loop d sid env k n).1 = n).
Proof.
  induction n as [|n IH]; intros k; simpl; [done|].
  destruct (decide (seen env k ≠ sid)); [done|].
  destruct (sent env k); [done|].
  specialize (IH (S k)). destruct (Session_loop d sid env (S k) n) as [msgs e1].
  simpl in *. destruct IH as [Hne Hopen]. split; [done|].
  intros H. by rewrite Hopen.
Qed.

(** How a session stream ends.  For a registered node the stream runs until
    the first round in which the check finds another session on the node,
    where it closes with InvalidSession, or in which the send fails, where it
    closes with the error of the send; the rounds before have emitted one
    message each.  The stream has no clean end: it never returns without an
    error. *)
Theorem Session_ends d r env n rn :
  d_nodes d !! api.SessionRequest_NodeID r = Some rn ->
  let sid := api.SessionRequest_SessionID r in
  let out := Session d r env n in
  (forall j, (j < n)%nat ->
     (forall i, (i < j)%nat -> seen env i = sid /\ sent env i = None) ->
     (seen env j <> sid ->
      length out.1 = j /\ out.2 = Closed (Some InvalidSession))
     /\ (forall e, seen env j = sid -> sent env j = Some e ->
           length out.1 = j /\ out.2 = Closed (Some e)))
  /\ out.2 <> Closed None
  /\ (out.2 = Open -> length out.1 = n).
Proof.
  intros Hrn sid out. subst out. unfold Session. rewrite Hrn. fold sid.
  split.
  - intros j Hlt Hgood. by apply (Session_loop_stops d sid env j n 0).
  - apply Session_loop_no_clean_end.
Qed.

Lemma Session_ends_witness :
  let out := Session sample.d1 sample.session1 sample.env_revoked 5 in
  length out.1 = 2%nat /\ out.2 = Closed (Some InvalidSession).
Proof.
  intros out.
  destruct (Session_ends sample.d1 sample.session1 sample.env_revoked 5 sample.rn1
              sample_d1_node) as [Hstop _].
  refine (proj1 (Hstop 2%nat ltac:(lia) _) _).
  - intros i Hi. destruct i as [|[|i]]; [split; reflexivity..|lia].
  - vm_compute. discriminate.
Defined.

(** ** The timer of a new registration *)



(** With a grace-period multiplier of zero, as in a [Config] left at its
    zero value, the timer that [registerNode] arms is due at the very time
    of the call.  [registerNode] has then written the map and released the
    lock, and [Register] has not yet written the store: a timer that fires at
    that point removes the node from the map, and when the store has no row
    for the node it leaves the store as it was and logs the failed update. *)
Theorem zero_multiplier_due_at_once d spec newID draw now rn d1 log :
  d_gracePeriodMultiplier d = 0 ->
  registerNode d spec newID draw now = Returned (rn, d1) ->
  let nid := api.NodeSpec_ID spec in
  d_nodes d1 !! nid = Some rn
  /\ d_store d1 = d_store d
  /\ heartbeat.fires (rn_Heartbeat rn) now = true
  /\ d_nodes (timer_fires now nid (d1, log)).1 !! nid = None
  /\ (state.nodes (d_store d) !! nid = None ->
      d_store (timer_fires now nid (d1, log)).1 = d_store d
      /\ exists line, (timer_fires now nid (d1, log)).2 = (log ++ [line])%list).
Proof.
  intros Hzero H nid. unfold registerNode in H.
  destruct (Choose (d_periodChooser d) draw) as [p|msg]; [|discriminate].
  injection H as <- <-. simpl. fold nid.
  assert (heartbeat.fires
            (heartbeat.New (wrap64 (p * d_gracePeriodMultiplier d)) now) now = true)
    as Hdue.
  { rewrite Hzero, Z.mul_0_r. unfold heartbeat.fires, heartbeat.New. simpl.
    apply Z.leb_le. rewrite (wrap64_id 0) by (unfold in_int64; lia). lia. }
  split; [apply lookup_insert_eq|]. split; [done|]. split; [exact Hdue|].
  unfold timer_fires. simpl. rewrite lookup_insert_eq. simpl. rewrite Hdue.
  unfold registerNode_callback, nodeDown, state.Update, state.Nodes_Update. simpl.
  destruct (state.nodes (d_store d) !! nid) as [row|] eqn:E; simpl.
  - split; [apply lookup_delete_eq|]. done.
  - split; [apply lookup_delete_eq|]. intros _. split; [done|]. eauto.
Qed.

Lemma zero_multiplier_due_at_once_witness :
  let d := New sample.store0
             {| Addr := ""; HeartbeatPeriod := 0; HeartbeatEpsilon := 0;
                GracePeriodMultiplier := 0 |} in
  exists rn d1,
    registerNode d {| api.NodeSpec_ID := "node-1" |} "session-1" 7 100 = Returned (rn, d1)
    /\ d_nodes d1 !! "node-1" = Some rn
    /\ heartbeat.fires (rn_Heartbeat rn) 100 = true
    /\ d_nodes (timer_fires 100 "node-1" (d1, [])).1 !! "node-1" = None
    /\ d_store (timer_fires 100 "node-1" (d1, [])).1 = d_store d
    /\ exists line, (timer_fires 100 "node-1" (d1, [])).2 = ([] ++ [line])%list.
Proof.
  intros d.
  destruct (registerNode d {| api.NodeSpec_ID := "node-1" |} "session-1" 7 100)
    as [[rn d1]|msg] eqn:E; [|vm_compute in E; discriminate].
  exists rn, d1. split; [reflexivity|].
  destruct (zero_multiplier_due_at_once d {| api.NodeSpec_ID := "node-1" |}
              "session-1" 7 100 rn d1 [] eq_refl E)
    as (Hin & _ & Hdue & Hout & Hlog).
  split; [exact Hin|]. split; [exact Hdue|]. split; [exact Hout|].
  apply Hlog. vm_compute. reflexivity.
Defined.

(** ** The helper of the certificate tests *)

(** The checks of [checkSingleCert] hold for every certificate signed from
    a request: whatever the request carries and whatever additional names the
    server passes, the signed bytes hold one certificate, issued under the
    signer's common name, with the server's CN, OU and O and with exactly the
    server's names as SANs. *)
Theorem checkSingleCert_passes rca s csr req cn ou org additional now :
  signer rca = Some s ->
  ParseCSR csr = Some req ->
  exists signedCert,
    ParseValidateAndSignCSR rca csr cn ou org additional now = Success signedCert
    /\ ca_test.checkSingleCert signedCert (CommonName (Subject (SignerCert s)))
         cn ou org additional = true.
Proof.
  intros Hs Hreq. unfold ParseValidateAndSignCSR, RootCA_Signer. rewrite Hs, Hreq.
  eexists. split; [reflexivity|].
  unfold ca_test.checkSingleCert. simpl.
  rewrite !bool_decide_true by done.
  rewrite (bool_decide_true (_ = _)) by (simpl; lia). simpl.
  apply forallb_elem. intros n Hn. apply bool_decide_eq_true.
  rewrite !elem_of_cons. apply elem_of_app in Hn as [Hn|Hn]; [tauto|].
  apply elem_of_cons in Hn as [->|Hn]; [tauto|].
  apply elem_of_cons in Hn as [->|Hn]; [tauto|]. by apply elem_of_nil in Hn.
Qed.

Lemma checkSingleCert_passes_witness :
  exists signedCert,
    ParseValidateAndSignCSR sample.rootCA1 [PEM_CertificateRequest sample.maliciousCSR]
      "CN" "OU" "ORG" [] 0 = Success signedCert
    /\ ca_test.checkSingleCert signedCert "rootCN" "CN" "OU" "ORG" [] = true.
Proof.
  apply (checkSingleCert_passes sample.rootCA1 _
           [PEM_CertificateRequest sample.maliciousCSR] sample.maliciousCSR
           "CN" "OU" "ORG" [] 0 eq_refl eq_refl).
Defined.
